(** * rolldown-deno-loader-plugin: the resolution and caching engine of [src/mod.ts]

    A shallow embedding of class [DenoLoaderPlugin]: the two caches, the
    projection of a [deno info] report ([cacheDenoInfo]), the deduplicated
    resolution ([denoResolve]), the loader ([load]) and the package-path
    regular expression ([extractPackageAndPath]).

    Conventions.
    - A JavaScript string is a [string] holding its UTF-8 encoding, as a
      string literal of this file does. [startsWith], [includes],
      [replace] with a string pattern and the negated classes of the
      package-path expression (all of ASCII characters) act on the bytes
      of the encoding as the code acts on the characters they encode; the
      dot of that expression does not, and is modelled on its own.
    - A [Map<string, V>] is a [gmap string V]; the code never iterates one.
    - A promise is a cell of the engine's promise heap; the async body of
      [denoResolve] is suspended at [await this.denoInfo(specifier)] and is
      resumed, atomically, by the event that delivers the subprocess output
      (single-threaded cooperative scheduling). *)

From Stdlib Require Import String Ascii ZArith List Lia Bool.
From stdpp Require Import base option list gmap strings fin_maps.

Open Scope string_scope.

#[local] Set Warnings "-clear-no-such-hyp".

(** ** Enumerations *)

(** [enum DenoMediaType]: a TypeScript string enum; the values arrive as
    JSON strings, so the members are kept as the strings they denote. *)
Module DenoMediaType.
Definition JavaScript := "JavaScript".
Definition Mjs := "Mjs".
Definition Cjs := "Cjs".
Definition JSX := "JSX".
Definition TypeScript := "TypeScript".
Definition Mts := "Mts".
Definition Cts := "Cts".
Definition Dts := "Dts".
Definition Dmts := "Dmts".
Definition Dcts := "Dcts".
Definition TSX := "TSX".
Definition Json := "Json".
Definition Wasm := "Wasm".
Definition TsBuildInfo := "TsBuildInfo".
Definition SourceMap := "SourceMap".
Definition Unknown := "Unknown".
End DenoMediaType.

(** [enum ModuleType]. *)
Inductive ModuleType :=
| Js | Jsx | Ts | Tsx | Json | Binary | Text | Empty.

#[global] Instance ModuleType_eq_dec : EqDecision ModuleType.
Proof. solve_decision. Defined.

(** ** Records of the discovery report *)

(** [ModuleInfo]: one element of [modules]. The source tests the shape of
    the object with the [in] operator, so every property is optional here;
    [npm_package] is the key the code tests, [npmPackage] the key the
    interface [TypedModuleDetailsNpm] declares. *)
Record ModuleInfo := {
  specifier : option string;
  local : option string;
  mediaType : option string;
  npm_package : option string;
  npmPackage : option string;
  error : option string
}.

(** [DenoInfoJsonV1]; [redirects] in the order of [Object.entries]. *)
Record DenoInfoJsonV1 := {
  redirects : list (string * string);
  modules : list ModuleInfo
}.

(** [DenoResolveResult]. *)
Record DenoResolveResult := {
  localPath : option string;
  redirected : string;
  moduleType : option ModuleType
}.

#[global] Instance DenoResolveResult_eq_dec : EqDecision DenoResolveResult.
Proof. solve_decision. Defined.

(** ** String primitives of the host language *)

(** [s.startsWith(p)]. *)
Definition startsWith (s p : string) : bool := String.prefix p s.

(** [s.includes(p)]. *)
Fixpoint includes (s p : string) : bool :=
  String.prefix p s ||
  match s with
  | EmptyString => false
  | String _ s' => includes s' p
  end.

(** Drop the first [n] characters. *)
Fixpoint string_drop (n : nat) (s : string) : string :=
  match n, s with
  | O, _ => s
  | S n', String _ s' => string_drop n' s'
  | S _, EmptyString => EmptyString
  end.

(** [s.replace(pat, rep)] with a string pattern: only the first
    occurrence of [pat], wherever it is, is replaced. *)
Fixpoint replace (pat rep s : string) : string :=
  if String.prefix pat s then rep ++ string_drop (String.length pat) s
  else match s with
       | EmptyString => EmptyString
       | String c s' => String c (replace pat rep s')
       end.

(** ** [mapMediaType] *)

Definition mapMediaType (media_type : string) : ModuleType :=
  if String.eqb media_type DenoMediaType.JavaScript
     || String.eqb media_type DenoMediaType.Mjs
     || String.eqb media_type DenoMediaType.Cjs then Js
  else if String.eqb media_type DenoMediaType.JSX then Jsx
  else if String.eqb media_type DenoMediaType.TypeScript
     || String.eqb media_type DenoMediaType.Mts
     || String.eqb media_type DenoMediaType.Cts
     || String.eqb media_type DenoMediaType.Dts
     || String.eqb media_type DenoMediaType.Dmts
     || String.eqb media_type DenoMediaType.Dcts then Ts
  else if String.eqb media_type DenoMediaType.TSX then Tsx
  else if String.eqb media_type DenoMediaType.Json then Json
  else if String.eqb media_type DenoMediaType.Wasm then Binary
  else if String.eqb media_type DenoMediaType.TsBuildInfo
     || String.eqb media_type DenoMediaType.SourceMap then Text
  else Empty.

(** ** [cacheDenoInfo]: projection of a report into the cache *)

(** The key under which a specifier is stored. *)
Definition cacheKey (s : string) : string := replace "file://" "" s.

(** The inner loop over [Object.entries(info.redirects)]. *)
Definition cacheRedirects (spec : string) (result : DenoResolveResult)
    (rs : list (string * string)) (cache : gmap string DenoResolveResult)
    : gmap string DenoResolveResult :=
  foldl (fun cache kv =>
           if String.eqb (snd kv) spec
           then <[cacheKey (fst kv) := result]> cache
           else cache) cache rs.

(** The body of the outer loop, for one element of [info.modules]. *)
Definition cacheModule (rs : list (string * string))
    (cache : gmap string DenoResolveResult) (details : ModuleInfo)
    : gmap string DenoResolveResult :=
  match specifier details, npm_package details, mediaType details with
  | Some spec, None, Some mt =>
      let result := {| localPath := local details;
                       redirected := spec;
                       moduleType := Some (mapMediaType mt) |} in
      cacheRedirects spec result rs (<[cacheKey spec := result]> cache)
  | _, _, _ => cache
  end.

Definition cacheDenoInfo (info : DenoInfoJsonV1)
    (cache : gmap string DenoResolveResult) : gmap string DenoResolveResult :=
  foldl (cacheModule (redirects info)) cache (modules info).

Definition esm (spec : string) (loc : option string) (mt : string) : ModuleInfo :=
  {| specifier := Some spec; local := loc; mediaType := Some mt;
     npm_package := None; npmPackage := None; error := None |}.

(** ** The regular expression of [extractPackageAndPath]

    /(?:[^:]+:\/?)?([@]?[^/\@]+\/[^/\@]+|[^/\@]+)(?:@[^/]{0,})?(?:\/(.+))?/

    (the source writes the quantifier {0,} of the third group as a star).

    A backtracking matcher returns every way it can match, in the order
    the engine would try them (greedy quantifiers take the longest run
    first, an alternation its left branch first); the match found by the
    engine is the first one. *)
Module Regex.

Record MatchState := {
  rest : string;              (* the input still to be read *)
  group1 : option string;     (* capture 1 *)
  group2 : option string      (* capture 2 *)
}.

Definition Matcher := MatchState -> list MatchState.

Definition set_rest (st : MatchState) (s : string) : MatchState :=
  {| rest := s; group1 := group1 st; group2 := group2 st |}.

Definition eps : Matcher := fun st => [st].

Definition seq (m1 m2 : Matcher) : Matcher :=
  fun st => flat_map m2 (m1 st).

Definition alt (m1 m2 : Matcher) : Matcher :=
  fun st => (m1 st ++ m2 st)%list.

(** [m?], greedy. *)
Definition optional (m : Matcher) : Matcher := alt m eps.

(** One character of a class. *)
Definition class (f : ascii -> bool) : Matcher :=
  fun st =>
    match rest st with
    | String c s' => if f c then [set_rest st s'] else []
    | EmptyString => []
    end.

(** The remainders left by a starred class on [s], longest run first. *)
Fixpoint star_rests (f : ascii -> bool) (s : string) : list string :=
  match s with
  | String c s' => if f c then (star_rests f s' ++ [s])%list else [s]
  | EmptyString => [s]
  end.

Definition star (f : ascii -> bool) : Matcher :=
  fun st => map (set_rest st) (star_rests f (rest st)).

Definition plus (f : ascii -> bool) : Matcher :=
  fun st =>
    match rest st with
    | String c s' => if f c then map (set_rest st) (star_rests f s') else []
    | EmptyString => []
    end.

(** The text read between two states of one run. *)
Definition consumed (before after : string) : string :=
  substring 0 (String.length before - String.length after) before.

Definition capture1 (m : Matcher) : Matcher :=
  fun st =>
    map (fun st' => {| rest := rest st';
                       group1 := Some (consumed (rest st) (rest st'));
                       group2 := group2 st' |}) (m st).

Definition capture2 (m : Matcher) : Matcher :=
  fun st =>
    map (fun st' => {| rest := rest st';
                       group1 := group1 st';
                       group2 := Some (consumed (rest st) (rest st')) |}) (m st).

Definition lit (c : ascii) : Matcher := class (Ascii.eqb c).

(** [[^:]] *)
Definition notColon (c : ascii) : bool := negb (Ascii.eqb c ":").
(** [[^/\@]] *)
Definition notSlashAt (c : ascii) : bool :=
  negb (Ascii.eqb c "/") && negb (Ascii.eqb c "@").
(** [[^/]] *)
Definition notSlash (c : ascii) : bool := negb (Ascii.eqb c "/").

(** A line terminator at the head of the input: LF, CR, U+2028 or U+2029.
    The last two are the three bytes E2 80 A8 and E2 80 A9. *)
Definition lineTerminator (s : string) : bool :=
  match s with
  | String c s' =>
      Ascii.eqb c "010" || Ascii.eqb c "013"
      || Ascii.eqb c "226"
         && match s' with
            | String c1 (String c2 _) =>
                Ascii.eqb c1 "128" && (Ascii.eqb c2 "168" || Ascii.eqb c2 "169")
            | _ => false
            end
  | EmptyString => false
  end.

(** [.] (no [s] flag): the input goes on with something other than a
    line terminator. *)
Definition dot (s : string) : bool :=
  match s with
  | String _ _ => negb (lineTerminator s)
  | EmptyString => false
  end.

(** The remainders left by [.{0,}] on [s], longest run first. *)
Fixpoint dot_rests (s : string) : list string :=
  match s with
  | String _ s' => if dot s then (dot_rests s' ++ [s])%list else [s]
  | EmptyString => [s]
  end.

(** [.+] *)
Definition plusDot : Matcher :=
  fun st =>
    match rest st with
    | String _ s' =>
        if dot (rest st) then map (set_rest st) (dot_rests s') else []
    | EmptyString => []
    end.

(** (?:[^:]+:\/?)? *)
Definition scheme : Matcher :=
  optional (seq (plus notColon) (seq (lit ":") (optional (lit "/")))).

(** ([@]?[^/\@]+\/[^/\@]+|[^/\@]+) *)
Definition package : Matcher :=
  capture1 (alt (seq (optional (lit "@"))
                     (seq (plus notSlashAt) (seq (lit "/") (plus notSlashAt))))
                (plus notSlashAt)).

(** (?:@[^/]{0,})? *)
Definition version : Matcher :=
  optional (seq (lit "@") (star notSlash)).

(** (?:\/(.+))? *)
Definition subpath : Matcher :=
  optional (seq (lit "/") (capture2 plusDot)).

Definition regex : Matcher :=
  seq scheme (seq package (seq version subpath)).

Definition start (s : string) : MatchState :=
  {| rest := s; group1 := None; group2 := None |}.

(** [s.match(regex)] for a regex without flags: the first start
    position, from the left, at which the regex matches. *)
Fixpoint exec (m : Matcher) (s : string) : option MatchState :=
  match head (m (start s)) with
  | Some st => Some st
  | None => match s with
            | EmptyString => None
            | String _ s' => exec m s'
            end
  end.

(** [m] takes a state only to states that [R] relates to it. *)
Definition respects (R : MatchState -> MatchState -> Prop) (m : Matcher) : Prop :=
  forall st st', In st' (m st) -> R st st'.

(** A matcher never gives back input. *)
Definition shorter (st st' : MatchState) : Prop :=
  String.length (rest st') <= String.length (rest st).

(** A matcher outside group 1 leaves capture 1 alone. *)
Definition sameGroup1 (st st' : MatchState) : Prop := group1 st' = group1 st.

End Regex.

(** [x || null] for a capture: [undefined] and the empty string are falsy. *)
Definition orNull (x : option string) : option string :=
  match x with
  | Some EmptyString => None
  | _ => x
  end.

Definition extractPackageAndPath (specifier : string)
    : option string * option string :=
  match Regex.exec Regex.regex specifier with
  | Some m => (orNull (Regex.group1 m), orNull (Regex.group2 m))
  | None => (None, None)
  end.

(** ** Errors *)

(** What the code can throw or reject with. *)
Inductive Error :=
| CommandFailed       (* [command.output()] rejects: the process could not be run *)
| SyntaxError         (* thrown by [JSON.parse] *)
| SpecifierNotFound   (* [Error("Specifier not found in cache after processing")] *)
| NoLocalPath         (* [Error("no local_path")] *)
| ReadFailed.         (* [Deno.readTextFile] rejects *)

#[global] Instance Error_eq_dec : EqDecision Error.
Proof. solve_decision. Defined.

(** The failure classes of the design, as sets of the errors above. *)
Definition isDiscoveryError (e : Error) : bool :=
  match e with CommandFailed | SyntaxError => true | _ => false end.

Definition isCacheConsistencyError (e : Error) : bool :=
  match e with SpecifierNotFound => true | _ => false end.

Definition isMissingArtifactError (e : Error) : bool :=
  match e with NoLocalPath => true | _ => false end.

(** ** The discovery subprocess *)

(** The bytes of standard output, classified the way [JSON.parse] sees
    them: text that is not JSON, or the JSON text of a report. The parsed
    value is used at the type [DenoInfoJsonV1] the source declares for it;
    JSON of another shape is outside the model. *)
Inductive Stdout :=
| NotJson (text : string)
| JsonReport (info : DenoInfoJsonV1).

(** [Deno.CommandOutput]. *)
Record CommandOutput := {
  code : Z;
  stdout : Stdout;
  stderr : string
}.

(** How [await command.output()] settles. *)
Inductive CommandSettled :=
| OutputRejected
| OutputResolved (output : CommandOutput).

Definition JSON_parse (out : Stdout) : Error + DenoInfoJsonV1 :=
  match out with
  | NotJson _ => inl SyntaxError
  | JsonReport info => inr info
  end.

(** [denoInfo] from [await command.output()] on: only [stdout] is
    destructured from the output. *)
Definition denoInfo_resume (r : CommandSettled) : Error + DenoInfoJsonV1 :=
  match r with
  | OutputRejected => inl CommandFailed
  | OutputResolved output => JSON_parse (stdout output)
  end.

(** ** The engine *)

(** A promise of a [DenoResolveResult]. A pending one is the suspended
    body of the async function in [denoResolve], which has captured
    [specifier] and waits for its subprocess. *)
Inductive PromiseState :=
| Pending (spec : string)
| Fulfilled (value : DenoResolveResult)
| Rejected (reason : Error).

Record Engine := {
  resolveDenoInfoCache : gmap string DenoResolveResult;
  resolvePromises : gmap string nat;
  promises : list PromiseState;   (* the promise heap; a promise is its index *)
  spawned : list string           (* the root specifiers of the [deno info]
                                     processes started so far, one per call
                                     of [denoInfo] *)
}.

(** The state built by the constructor. *)
Definition newEngine : Engine :=
  {| resolveDenoInfoCache := ∅; resolvePromises := ∅;
     promises := []; spawned := [] |}.

(** A computation on the engine that may throw. *)
Definition M (A : Type) : Type := Engine -> (Error + A) * Engine.

Definition ret {A} (a : A) : M A := fun st => (inr a, st).

Definition throw {A} (e : Error) : M A := fun st => (inl e, st).

Definition bind {A B} (m : M A) (k : A -> M B) : M B :=
  fun st => match m st with
            | (inl e, st') => (inl e, st')
            | (inr a, st') => k a st'
            end.

(** [try { body } finally { cleanup }]. *)
Definition try_finally {A} (body : M A) (cleanup : Engine -> Engine) : M A :=
  fun st => let r := body st in (fst r, cleanup (snd r)).

Notation "'do' x <- m ; k" := (bind m (fun x => k))
  (at level 10, x name, m at level 100, k at level 200).

Definition liftE {A} (r : Error + A) : M A := fun st => (r, st).

Definition cache_modify (f : gmap string DenoResolveResult -> gmap string DenoResolveResult)
    : M unit :=
  fun st => (inr tt,
             {| resolveDenoInfoCache := f (resolveDenoInfoCache st);
                resolvePromises := resolvePromises st;
                promises := promises st; spawned := spawned st |}).

Definition cache_get (key : string) : M (option DenoResolveResult) :=
  fun st => (inr (resolveDenoInfoCache st !! key), st).

Definition resolvePromises_delete (key : string) (st : Engine) : Engine :=
  {| resolveDenoInfoCache := resolveDenoInfoCache st;
     resolvePromises := delete key (resolvePromises st);
     promises := promises st; spawned := spawned st |}.

Definition promise_settle (promise : nat) (s : PromiseState) (st : Engine) : Engine :=
  {| resolveDenoInfoCache := resolveDenoInfoCache st;
     resolvePromises := resolvePromises st;
     promises := <[promise := s]> (promises st); spawned := spawned st |}.

(** [denoResolve], the synchronous part: up to the first suspension of
    the async body, which is reached after the subprocess has been
    started. Returns the promise handed to the caller. *)
Definition denoResolve (specifier : string) (st : Engine) : nat * Engine :=
  match resolveDenoInfoCache st !! specifier with
  | Some cachedResult =>
      (* Promise.resolve(cachedResult) *)
      (length (promises st),
       {| resolveDenoInfoCache := resolveDenoInfoCache st;
          resolvePromises := resolvePromises st;
          promises := (promises st ++ [Fulfilled cachedResult])%list;
          spawned := spawned st |})
  | None =>
      match resolvePromises st !! specifier with
      | Some promise => (promise, st)
      | None =>
          let promise := length (promises st) in
          (promise,
           {| resolveDenoInfoCache := resolveDenoInfoCache st;
              resolvePromises := <[specifier := promise]> (resolvePromises st);
              promises := (promises st ++ [Pending specifier])%list;
              spawned := (spawned st ++ [specifier])%list |})
      end
  end.

(** The async body of [denoResolve] from [await this.denoInfo(specifier)]
    on, run to its end when the subprocess has settled with [r]. *)
Definition denoResolve_body (specifier : string) (r : CommandSettled)
    : M DenoResolveResult :=
  try_finally
    (do info <- liftE (denoInfo_resume r);
     do _u <- cache_modify (cacheDenoInfo info);
     do cached <- cache_get specifier;
     match cached with
     | None => throw SpecifierNotFound
     | Some cached => ret cached
     end)
    (resolvePromises_delete specifier).

Definition settled (r : Error + DenoResolveResult) : PromiseState :=
  match r with
  | inl e => Rejected e
  | inr v => Fulfilled v
  end.

(** The subprocess awaited by [promise] settles with [r]: the body runs
    to its end and its promise settles with what it returned or threw. *)
Definition resume (promise : nat) (r : CommandSettled) (st : Engine) : Engine :=
  match promises st !! promise with
  | Some (Pending specifier) =>
      let res := denoResolve_body specifier r st in
      promise_settle promise (settled (fst res)) (snd res)
  | _ => st
  end.

(** What [await promise] gives once the promise has settled. *)
Definition await (st : Engine) (promise : nat) : option (Error + DenoResolveResult) :=
  match promises st !! promise with
  | Some (Fulfilled v) => Some (inr v)
  | Some (Rejected e) => Some (inl e)
  | _ => None
  end.

(** What can happen to the engine, one task at a time. *)
Inductive Event :=
| CallCacheDenoInfo (info : DenoInfoJsonV1)   (* [buildStart] seeds the cache *)
| CallDenoResolve (specifier : string)        (* a hook calls [denoResolve] *)
| CommandSettles (promise : nat) (r : CommandSettled).

Definition step (st : Engine) (ev : Event) : Engine :=
  match ev with
  | CallCacheDenoInfo info => snd (cache_modify (cacheDenoInfo info) st)
  | CallDenoResolve specifier => snd (denoResolve specifier st)
  | CommandSettles promise r => resume promise r st
  end.

Definition run (evs : list Event) (st : Engine) : Engine := foldl step st evs.

(** [n] calls of [denoResolve] for one specifier in a row, as made by
    [n] hooks before any of them is resumed. *)
Fixpoint denoResolveN (n : nat) (specifier : string) (st : Engine)
    : list nat * Engine :=
  match n with
  | O => ([], st)
  | S n' =>
      let r := denoResolve specifier st in
      let rs := denoResolveN n' specifier (snd r) in
      (fst r :: fst rs, snd rs)
  end.

(** ** [load] *)

Record LoadResult := {
  load_code : string;
  load_moduleType : option ModuleType
}.

Inductive LoadStep :=
| LoadUndefined                    (* the id is not handled *)
| LoadAwait (promise : nat).       (* suspended at [await this.denoResolve(id)] *)

Definition load (id : string) (st : Engine) : LoadStep * Engine :=
  if startsWith id "jsr:" || startsWith id "http:" || startsWith id "https:"
  then let r := denoResolve id st in (LoadAwait (fst r), snd r)
  else (LoadUndefined, st).

(** [load] from the settlement of the awaited promise on. The string
    test [!localPath] also rejects the empty path. *)
Definition load_resume (readTextFile : string -> Error + string)
    (awaited : Error + DenoResolveResult) : Error + LoadResult :=
  match awaited with
  | inl e => inl e
  | inr cached =>
      match localPath cached with
      | None | Some EmptyString => inl NoLocalPath
      | Some localPath =>
          match readTextFile localPath with
          | inl e => inl e
          | inr content =>
              inr {| load_code :=
                       if decide (moduleType cached = Some Json)
                       then "export default " ++ content else content;
                     load_moduleType :=
                       if decide (moduleType cached = Some Json)
                       then Some Js else moduleType cached |}
          end
      end
  end.

(** ** [resolveId], from the classification of [maybe_resolved] on *)

Record ResolvedId := {
  resolved_id : string;
  external : bool
}.

Inductive ResolveIdStep :=
| ResolveReturn (r : option ResolvedId)
| ResolveAwaitDeno (promise : nat)           (* [await this.denoResolve(maybe_resolved)] *)
| ResolveAwaitHost (npm_package : string).   (* [await context.resolve(npm_package, ...)] *)

(** How a call ends when one of the host's functions may throw outside a
    [try]. *)
Inductive Completion (A : Type) :=
| Normal (a : A)
| ThrowTypeError.

Arguments Normal {A} a.
Arguments ThrowTypeError {A}.

(** The request made to the host for an [npm:] identifier:
    [(package_name && package_path ? package_name/package_path :
    package_name) ?? maybe_resolved]. *)
Definition npmRequest (maybe_resolved : string) : string :=
  let pp := extractPackageAndPath maybe_resolved in
  match fst pp, snd pp with
  | Some package_name, Some package_path => package_name ++ "/" ++ package_path
  | Some package_name, None => package_name
  | None, _ => maybe_resolved
  end.

(** [URL_pathname s] stands for [new URL(s).pathname]: [None] where
    [new URL(s)] throws, which it does on a string that is no URL, with
    or without the [file:] scheme. *)
Definition resolveId_dispatch (URL_pathname : string -> option string)
    (maybe_resolved : string) (st : Engine) : Completion ResolveIdStep * Engine :=
  if startsWith maybe_resolved "node:"
  then (Normal (ResolveReturn
                  (Some {| resolved_id := maybe_resolved; external := true |})), st)
  else if startsWith maybe_resolved "file:"
  then match URL_pathname maybe_resolved with
       | Some final_id =>
           (Normal (ResolveReturn
                      (Some {| resolved_id := final_id; external := false |})), st)
       | None => (ThrowTypeError, st)
       end
  else if startsWith maybe_resolved "jsr:"
  then let r := denoResolve maybe_resolved st in
       (Normal (ResolveAwaitDeno (fst r)), snd r)
  else if startsWith maybe_resolved "npm:"
  then (Normal (ResolveAwaitHost (npmRequest maybe_resolved)), st)
  else if startsWith maybe_resolved "http:" || startsWith maybe_resolved "https:"
  then (Normal (ResolveReturn
                  (Some {| resolved_id := maybe_resolved; external := false |})), st)
  else (Normal (ResolveReturn None), st).

(** The [jsr:] branch from the settlement of the awaited promise on. *)
Definition resolveId_resume (awaited : Error + DenoResolveResult)
    : Error + ResolvedId :=
  match awaited with
  | inl e => inl e
  | inr cached => inr {| resolved_id := redirected cached; external := false |}
  end.

(** ** Derived notions used in the statements *)

(** The entry [cacheDenoInfo] builds for a module record, when it takes it. *)
Definition moduleResult (details : ModuleInfo) : option DenoResolveResult :=
  match specifier details, npm_package details, mediaType details with
  | Some spec, None, Some mt =>
      Some {| localPath := local details; redirected := spec;
              moduleType := Some (mapMediaType mt) |}
  | _, _, _ => None
  end.

(** The keys written by the inner loop for the module [spec]. *)
Definition redirectKeys (spec : string) (rs : list (string * string)) : list string :=
  map (fun kv => cacheKey (fst kv))
      (List.filter (fun kv => String.eqb (snd kv) spec) rs).

(** The keys written for one module record. *)
Definition moduleKeys (rs : list (string * string)) (details : ModuleInfo)
    : list string :=
  match specifier details, npm_package details, mediaType details with
  | Some spec, None, Some _ => cacheKey spec :: redirectKeys spec rs
  | _, _, _ => []
  end.

(** The keys written by the projection of a report. *)
Definition reportKeys (info : DenoInfoJsonV1) : list string :=
  flat_map (moduleKeys (redirects info)) (modules info).

(** The cache the body leaves behind. *)
Definition cacheAfter (r : CommandSettled) (cache : gmap string DenoResolveResult)
    : gmap string DenoResolveResult :=
  match denoInfo_resume r with
  | inl _ => cache
  | inr info => cacheDenoInfo info cache
  end.

(** What the body returns or throws. *)
Definition outcome (specifier : string) (r : CommandSettled)
    (cache : gmap string DenoResolveResult) : Error + DenoResolveResult :=
  match denoInfo_resume r with
  | inl e => inl e
  | inr info =>
      match cacheDenoInfo info cache !! specifier with
      | None => inl SpecifierNotFound
      | Some cached => inr cached
      end
  end.

(** The in-flight map and the suspended bodies are in one-to-one
    correspondence: an entry for [s] points at the body suspended for [s],
    and every suspended body is pointed at by the entry of its specifier. *)
Record Inv (st : Engine) : Prop := {
  inv_inflight : forall s p,
    resolvePromises st !! s = Some p -> promises st !! p = Some (Pending s);
  inv_pending : forall p s,
    promises st !! p = Some (Pending s) -> resolvePromises st !! s = Some p
}.

(** Strings in which the expression finds nothing: those made only of
    slashes and at-signs (the empty string among them). *)
Fixpoint noPackageShape (s : string) : bool :=
  match s with
  | EmptyString => true
  | String c s' => negb (Regex.notSlashAt c) && noPackageShape s'
  end.

Definition report_ab : DenoInfoJsonV1 :=
  {| redirects := [("jsr:@a/b", "https://jsr.io/@a/b/1.0.0/mod.ts")];
     modules := [esm "https://jsr.io/@a/b/1.0.0/mod.ts" (Some "/tmp/b.ts") "TypeScript"] |}.

Definition entry_ab : DenoResolveResult :=
  {| localPath := Some "/tmp/b.ts";
     redirected := "https://jsr.io/@a/b/1.0.0/mod.ts";
     moduleType := Some Ts |}.

Definition exited (c : Z) (out : Stdout) : CommandSettled :=
  OutputResolved {| code := c; stdout := out; stderr := "" |}.

(** Two reports that both describe [jsr:@a/b], with different artifacts. *)
Definition report_b1 : DenoInfoJsonV1 :=
  {| redirects := [];
     modules := [esm "jsr:@a/b" (Some "/cache/1/b.ts") "TypeScript"] |}.

Definition report_d_b2 : DenoInfoJsonV1 :=
  {| redirects := [];
     modules := [esm "jsr:@c/d" (Some "/cache/d.ts") "TypeScript";
                 esm "jsr:@a/b" (Some "/cache/2/b.js") "JavaScript"] |}.

Definition trace_b_d : list Event :=
  [CallDenoResolve "jsr:@a/b";
   CommandSettles 0 (exited 0 (JsonReport report_b1));
   CallDenoResolve "jsr:@c/d"].

(** A resolution whose subprocess prints no JSON. *)
Definition trace_failed_first : list Event :=
  [CallDenoResolve "jsr:@a/b";
   CommandSettles 0 (exited 1 (NotJson "error: Import failed"))].

(** A subprocess that prints a report and exits with status 1. *)
Definition output_exit1 : CommandOutput :=
  {| code := 1; stdout := JsonReport report_ab;
     stderr := "error: Module not found" |}.

(** A redirect whose source carries the file scheme. *)
Definition report_file_redirect : DenoInfoJsonV1 :=
  {| redirects := [("file:///src/a.js", "file:///src/b.js")];
     modules := [esm "file:///src/b.js" (Some "/tmp/b.js") "JavaScript"] |}.

(** The redirect of the design's example: A to B, JavaScript, [/tmp/b.js]. *)
Definition report_redirect : DenoInfoJsonV1 :=
  {| redirects := [("jsr:@a/b", "https://jsr.io/@a/b/1.0.0/b.js")];
     modules := [esm "https://jsr.io/@a/b/1.0.0/b.js" (Some "/tmp/b.js") "JavaScript"] |}.

(** A record for a file specifier, and one whose specifier carries the
    file scheme twice. *)
Definition report_file_a : DenoInfoJsonV1 :=
  {| redirects := [];
     modules := [esm "file:///src/a.ts" (Some "/src/a.ts") "TypeScript"] |}.

Definition report_double_scheme : DenoInfoJsonV1 :=
  {| redirects := [];
     modules := [esm "file://file:///src/a.ts" (Some "/src/a.ts") "TypeScript"] |}.

(** A remote module that was never materialized. *)
Definition report_no_local : DenoInfoJsonV1 :=
  {| redirects := []; modules := [esm "https://esm.sh/x" None "JavaScript"] |}.

Definition entry_no_local : DenoResolveResult :=
  {| localPath := None; redirected := "https://esm.sh/x"; moduleType := Some Js |}.

(** How many subprocesses have been started for [s]. *)
Definition invocations (s : string) (st : Engine) : nat :=
  length (List.filter (String.eqb s) (spawned st)).

(** The report an event projects into the cache, if it does. *)
Definition projected (ev : Event) (st : Engine) : option DenoInfoJsonV1 :=
  match ev with
  | CallCacheDenoInfo info => Some info
  | CallDenoResolve _ => None
  | CommandSettles promise r =>
      match promises st !! promise, denoInfo_resume r with
      | Some (Pending _), inr info => Some info
      | _, _ => None
      end
  end.

Definition handledByLoad (id : string) : bool :=
  startsWith id "jsr:" || startsWith id "http:" || startsWith id "https:".

(** ** Further notions: what a projection leaves under a key *)

(** The entry the projection of [ms] leaves under [k], if it writes [k]:
    the one of the last record that writes it. *)
Definition projectedEntry (rs : list (string * string)) (ms : list ModuleInfo)
    (k : string) : option DenoResolveResult :=
  foldl (fun acc d => if decide (k ∈ moduleKeys rs d) then moduleResult d else acc)
        None ms.

(** Every entry of the cache has its module type set. *)
Definition typedCache (cache : gmap string DenoResolveResult) : Prop :=
  forall k e, cache !! k = Some e -> is_Some (moduleType e).

(** The media-type tags [mapMediaType] knows, by the kind it gives them. *)
Definition tagsOf (kind : ModuleType) : list string :=
  match kind with
  | Js => [DenoMediaType.JavaScript; DenoMediaType.Mjs; DenoMediaType.Cjs]
  | Jsx => [DenoMediaType.JSX]
  | Ts => [DenoMediaType.TypeScript; DenoMediaType.Mts; DenoMediaType.Cts;
           DenoMediaType.Dts; DenoMediaType.Dmts; DenoMediaType.Dcts]
  | Tsx => [DenoMediaType.TSX]
  | Json => [DenoMediaType.Json]
  | Binary => [DenoMediaType.Wasm]
  | Text => [DenoMediaType.TsBuildInfo; DenoMediaType.SourceMap]
  | Empty => []
  end.

(** Every entry of the cache and every entry a promise was fulfilled with
    has its module type set. *)
Definition typedEngine (st : Engine) : Prop :=
  typedCache (resolveDenoInfoCache st)
  /\ forall p v, promises st !! p = Some (Fulfilled v) -> is_Some (moduleType v).

(** ** [JSON.stringify] of the import-map cache key *)

(** The double quote. *)
Definition dquote : ascii := "034"%char.

Definition hexDigit (n : nat) : ascii :=
  match n with
  | 0 => "0" | 1 => "1" | 2 => "2" | 3 => "3" | 4 => "4" | 5 => "5" | 6 => "6"
  | 7 => "7" | 8 => "8" | 9 => "9" | 10 => "a" | 11 => "b" | 12 => "c"
  | 13 => "d" | 14 => "e" | _ => "f"
  end%char.

(** One character of a quoted JSON string: the short escapes, [\u00xx]
    for the other control characters, the character itself otherwise. *)
Definition JSON_quote_char (c : ascii) : string :=
  let n := nat_of_ascii c in
  if Nat.eqb n 8 then "\b"
  else if Nat.eqb n 9 then "\t"
  else if Nat.eqb n 10 then "\n"
  else if Nat.eqb n 12 then "\f"
  else if Nat.eqb n 13 then "\r"
  else if Nat.eqb n 34 then String "\" (String dquote "")
  else if Nat.eqb n 92 then "\\"
  else if Nat.ltb n 32
       then "\u00" ++ String (hexDigit (n / 16)) (String (hexDigit (n mod 16)) "")
       else String c "".

Fixpoint JSON_escape (s : string) : string :=
  match s with
  | EmptyString => EmptyString
  | String c s' => JSON_quote_char c ++ JSON_escape s'
  end.

(** [JSON.stringify(s)] for a string. *)
Definition JSON_quote (s : string) : string :=
  String dquote (JSON_escape s ++ String dquote "").

(** [JSON.stringify({ id, importer })]: a property whose value is
    [undefined] is left out. *)
Definition importMapKey (id : string) (importer : option string) : string :=
  "{" ++ JSON_quote "id" ++ ":" ++ JSON_quote id
  ++ match importer with
     | None => ""
     | Some importer => "," ++ JSON_quote "importer" ++ ":" ++ JSON_quote importer
     end
  ++ "}".

(** Reading a quoted string back, from after its opening quote: the
    characters up to the closing quote and what follows it. *)
Definition unhexDigit (c : ascii) : option nat :=
  let n := nat_of_ascii c in
  if Nat.leb 48 n && Nat.leb n 57 then Some (n - 48)
  else if Nat.leb 97 n && Nat.leb n 102 then Some (n - 87)
  else None.

Definition pushChar (c : ascii) (r : option (string * string))
    : option (string * string) :=
  match r with
  | Some (s, rest) => Some (String c s, rest)
  | None => None
  end.

Fixpoint JSON_scan (s : string) : option (string * string) :=
  match s with
  | EmptyString => None
  | String c s' =>
      if Ascii.eqb c dquote then Some (EmptyString, s')
      else if Ascii.eqb c "\" then
        match s' with
        | String t s'' =>
            if Ascii.eqb t "b" then pushChar "008" (JSON_scan s'')
            else if Ascii.eqb t "t" then pushChar "009" (JSON_scan s'')
            else if Ascii.eqb t "n" then pushChar "010" (JSON_scan s'')
            else if Ascii.eqb t "f" then pushChar "012" (JSON_scan s'')
            else if Ascii.eqb t "r" then pushChar "013" (JSON_scan s'')
            else if Ascii.eqb t dquote then pushChar dquote (JSON_scan s'')
            else if Ascii.eqb t "\" then pushChar "\" (JSON_scan s'')
            else if Ascii.eqb t "u" then
              match s'' with
              | String _ (String _ (String h (String l s3))) =>
                  match unhexDigit h, unhexDigit l with
                  | Some a, Some b => pushChar (ascii_of_nat (16 * a + b)) (JSON_scan s3)
                  | _, _ => None
                  end
              | _ => None
              end
            else None
        | EmptyString => None
        end
      else pushChar c (JSON_scan s')
  end.

(** ** The host's interfaces *)

(** What the plugin takes from the runtime and from the import-map
    library; a function that can throw returns [None] where it does. *)
Record Host := {
  URL : Type;
  URL_canParse : string -> bool;
  (** [new URL(s)] for a string that can be parsed *)
  URL_new : string -> URL;
  (** [toFileUrl(path)] throws on a path that is not absolute *)
  toFileUrl : string -> option URL;
  (** [new URL(specifier, base).toString()] *)
  URL_resolve : string -> URL -> option string;
  (** [new URL(s).pathname]; [new URL(s)] throws on a string that is no URL *)
  URL_pathname : string -> option string;
  (** [resolveModuleSpecifier(id, this.importMap, importer_url)] *)
  resolveModuleSpecifier : string -> URL -> option string;
  importMapBaseUrl : URL
}.

(** A JavaScript string used as a condition: [undefined] and the empty
    string are falsy. *)
Definition truthy (s : option string) : option string :=
  match s with
  | Some EmptyString => None
  | _ => s
  end.

(** [new URL(URL.canParse(importer) ? importer : toFileUrl(importer))]. *)
Definition importerUrl (h : Host) (importer : string) : Completion (URL h) :=
  if URL_canParse h importer then Normal (URL_new h importer)
  else match toFileUrl h importer with
       | Some url => Normal url
       | None => ThrowTypeError
       end.

(** ** [resolveFromImportMap] *)

Definition resolveFromImportMap (h : Host) (id : string) (importer : option string)
    (cache : gmap string (option string))
    : Completion (option string) * gmap string (option string) :=
  let key := importMapKey id importer in
  match cache !! key with
  | Some cacheValue => (Normal cacheValue, cache)
  | None =>
      match match truthy importer with
            | Some importer => importerUrl h importer
            | None => Normal (importMapBaseUrl h)
            end with
      | ThrowTypeError => (ThrowTypeError, cache)
      | Normal importer_url =>
          (* try { value = resolveModuleSpecifier(...) } catch {} *)
          let value := resolveModuleSpecifier h id importer_url in
          (Normal value, <[key := value]> cache)
      end
  end.

(** The value [resolveFromImportMap] computes when it does not find one. *)
Definition importMapLookup (h : Host) (id : string) (importer : option string)
    : Completion (option string) :=
  match match truthy importer with
        | Some importer => importerUrl h importer
        | None => Normal (importMapBaseUrl h)
        end with
  | ThrowTypeError => ThrowTypeError
  | Normal importer_url => Normal (resolveModuleSpecifier h id importer_url)
  end.

(** Every entry of the import-map cache is what the lookup gives. *)
Definition coherent (h : Host) (cache : gmap string (option string)) : Prop :=
  forall id importer v,
    cache !! importMapKey id importer = Some v ->
    importMapLookup h id importer = Normal v.

(** ** [resolveId] *)

(** The plugin instance: the engine and the import-map cache. *)
Record Plugin := {
  engine : Engine;
  resolveModuleSpecifierCache : gmap string (option string)
}.

Definition isPath (s : string) : bool := startsWith s "." || startsWith s "/".

(** The first statements of [resolveId]: a relative or absolute path is
    made a URL against the importer, unless there is no importer or it
    lies under [node_modules]. *)
Definition rewriteId (h : Host) (specifier : string) (importer : option string)
    : Completion string :=
  if isPath specifier then
    match truthy importer with
    | Some importer =>
        if includes importer "node_modules" then Normal specifier
        else match importerUrl h importer with
             | ThrowTypeError => ThrowTypeError
             | Normal base_url =>
                 match URL_resolve h specifier base_url with
                 | Some id => Normal id
                 | None => ThrowTypeError
                 end
             end
    | None => Normal specifier
    end
  else Normal specifier.

Definition resolveId (h : Host) (specifier : string) (importer : option string)
    (pl : Plugin) : Completion ResolveIdStep * Plugin :=
  match rewriteId h specifier importer with
  | ThrowTypeError => (ThrowTypeError, pl)
  | Normal id =>
      let r := if isPath id
               then (Normal None, resolveModuleSpecifierCache pl)
               else resolveFromImportMap h id importer
                      (resolveModuleSpecifierCache pl) in
      match fst r with
      | ThrowTypeError =>
          (ThrowTypeError,
           {| engine := engine pl; resolveModuleSpecifierCache := snd r |})
      | Normal mapped =>
          let maybe_resolved := default id mapped in
          let d := resolveId_dispatch (URL_pathname h) maybe_resolved (engine pl) in
          (fst d, {| engine := snd d; resolveModuleSpecifierCache := snd r |})
      end
  end.

(** What [await context.resolve(npm_package, ...)] settles with: the
    host's resolution ([null] included), a value of a type [R] of the
    host's, or a rejection. *)
Inductive HostSettled (R : Type) :=
| HostResolved (res : R)
| HostRejected.

Arguments HostResolved {R} res.
Arguments HostRejected {R}.

(** How a call of [resolveId] ends. *)
Inductive ResolveIdResult (R : Type) :=
| Returned (r : option ResolvedId)   (* an object built by [resolveId], or [undefined] *)
| ReturnedFromHost (res : R)         (* [return res] *)
| Thrown (e : Error)                 (* rethrown from [denoResolve] *)
| ThrownTypeError                    (* from [new URL] or [toFileUrl] *)
| ThrownByHost.                      (* [context.resolve] rejected *)

Arguments Returned {R} r.
Arguments ReturnedFromHost {R} res.
Arguments Thrown {R} e.
Arguments ThrownTypeError {R}.
Arguments ThrownByHost {R}.

(** The end of a call of [resolveId] that came to [step]: [st] is the
    engine when the caller looks, [host] what the host's resolution of a
    request settles with. A call that waits for a discovery has no end
    while its promise is pending. *)
Definition resolveId_settle {R : Type} (step : Completion ResolveIdStep)
    (st : Engine) (host : string -> HostSettled R) : option (ResolveIdResult R) :=
  match step with
  | ThrowTypeError => Some ThrownTypeError
  | Normal (ResolveReturn r) => Some (Returned r)
  | Normal (ResolveAwaitDeno promise) =>
      match await st promise with
      | Some awaited =>
          Some match resolveId_resume awaited with
               | inl e => Thrown e
               | inr r => Returned (Some r)
               end
      | None => None
      end
  | Normal (ResolveAwaitHost npm_package) =>
      Some match host npm_package with
           | HostResolved res => ReturnedFromHost res
           | HostRejected => ThrownByHost
           end
  end.

(** ** Package references *)

(** A registry specifier taken apart:
    [scheme:[/][@scope/]name[@version][/subpath]]. *)
Record PackageRef := {
  ref_scheme : string;
  ref_slash : bool;
  ref_scope : option string;
  ref_name : string;
  ref_version : option string;
  ref_subpath : option string
}.

Definition optPart (before : string) (part : option string) (after : string) : string :=
  match part with
  | Some p => before ++ p ++ after
  | None => ""
  end.

(** The package name with its scope. *)
Definition packageName (r : PackageRef) : string :=
  optPart "@" (ref_scope r) "/" ++ ref_name r.

(** What follows the package name. *)
Definition refTail (r : PackageRef) : string :=
  optPart "@" (ref_version r) "" ++ optPart "/" (ref_subpath r) "".

(** The specifier as written. *)
Definition render (r : PackageRef) : string :=
  ref_scheme r ++ ":" ++ (if ref_slash r then "/" else "")
  ++ packageName r ++ refTail r.

Fixpoint allChars (f : ascii -> bool) (s : string) : bool :=
  match s with
  | EmptyString => true
  | String c s' => f c && allChars f s'
  end.

Definition nonEmpty (s : string) : bool :=
  match s with
  | EmptyString => false
  | String _ _ => true
  end.

(** No line terminator anywhere in [s]. *)
Fixpoint oneLine (s : string) : bool :=
  match s with
  | EmptyString => true
  | String _ s' => Regex.dot s && oneLine s'
  end.

Definition optAll (f : string -> bool) (o : option string) : bool :=
  match o with
  | Some s => f s
  | None => true
  end.

(** The references the expression takes apart as written: scheme, scope
    and name are non-empty and free of the characters that end them; the
    version has no slash; the subpath is non-empty and has no line
    terminator (LF, CR, U+2028, U+2029); and a
    name without scope that has a subpath also has a version (without
    one, the first segment of the subpath is read as part of the name). *)
Definition wellFormedRef (r : PackageRef) : bool :=
  nonEmpty (ref_scheme r) && allChars Regex.notColon (ref_scheme r)
  && optAll (fun s => nonEmpty s && allChars Regex.notSlashAt s) (ref_scope r)
  && nonEmpty (ref_name r) && allChars Regex.notSlashAt (ref_name r)
  && optAll (allChars Regex.notSlash) (ref_version r)
  && optAll (fun s => nonEmpty s && oneLine s) (ref_subpath r)
  && match ref_scope r, ref_version r, ref_subpath r with
     | None, None, Some _ => false
     | _, _, _ => true
     end.

(** The identifier [resolveId] hands to the host for an [npm:] specifier. *)
Definition hostRequest (r : PackageRef) : string :=
  match ref_subpath r with
  | Some subpath => packageName r ++ "/" ++ subpath
  | None => packageName r
  end.

(** Where a run of the class [f] ends: at the end of the input or at a
    character outside the class. *)
Definition stops (f : ascii -> bool) (s : string) : Prop :=
  match s with String c _ => f c = false | EmptyString => True end.

(** A match state, field by field. *)
Definition mk (s : string) (g1 g2 : option string) : Regex.MatchState :=
  {| Regex.rest := s; Regex.group1 := g1; Regex.group2 := g2 |}.

(** A tail that does not continue a name: empty, or a version, or a subpath. *)
Definition endsName (tail : string) : Prop :=
  match tail with
  | EmptyString => True
  | String c _ => c = "@"%char \/ c = "/"%char
  end.

(** [m] finds [st'] first when started in [st]. *)
Definition firstMatch (m : Regex.Matcher) (st st' : Regex.MatchState) : Prop :=
  exists l, m st = st' :: l.

(** Reading an import-map cache key back: the identifier and the importer
    it was made from. *)
Definition parseKey (key : string) : option (string * option string) :=
  match JSON_scan (string_drop 7 key) with
  | Some (id, after) =>
      if String.eqb after "}" then Some (id, None)
      else match JSON_scan (string_drop 13 after) with
           | Some (importer, _) => Some (id, Some importer)
           | None => None
           end
  | None => None
  end.

(** A small host for the examples: URLs are their strings, a path is made
    a file URL when it is absolute, a relative specifier is appended to
    its base, and the import map sends [lodash] to a registry specifier. *)
Definition sampleHost : Host :=
  {| URL := string;
     URL_canParse := fun s => includes s "://";
     URL_new := fun s => s;
     toFileUrl := fun p => if startsWith p "/" then Some ("file://" ++ p) else None;
     URL_resolve := fun specifier base => Some (base ++ "/" ++ specifier);
     URL_pathname := fun s =>
       if startsWith s "file://" then Some (string_drop 7 s) else None;
     resolveModuleSpecifier := fun id _ =>
       if String.eqb id "lodash" then Some "npm:lodash@4.17.21/fp" else None;
     importMapBaseUrl := "file:///proj/" |}.

Definition newPlugin : Plugin :=
  {| engine := newEngine; resolveModuleSpecifierCache := ∅ |}.

(** ** [buildStart] *)

(** The loop of [buildStart] over the entry points, run with no other
    task in between: the subprocess a resolution waits for settles, with
    [settle entry], before anything else happens to the engine. The
    result is [None] if the awaited promise has not settled. *)
Fixpoint buildStart_entries (settle : string -> CommandSettled)
    (entryPoints : list string) (st : Engine) : option (Error + unit) * Engine :=
  match entryPoints with
  | [] => (Some (inr tt), st)
  | entry :: rest =>
      let r := denoResolve entry st in
      let st1 := resume (fst r) (settle entry) (snd r) in
      match await st1 (fst r) with
      | Some (inr _) => buildStart_entries settle rest st1
      | Some (inl e) => (Some (inl e), st1)
      | None => (None, st1)
      end
  end.

(** [buildStart]: the report given to the constructor, if any, is
    projected first. *)
Definition buildStart (settle : string -> CommandSettled)
    (denoInfoCache : option DenoInfoJsonV1) (entryPoints : list string)
    (st : Engine) : option (Error + unit) * Engine :=
  buildStart_entries settle entryPoints
    match denoInfoCache with
    | Some info => snd (cache_modify (cacheDenoInfo info) st)
    | None => st
    end.

(** * Properties *)

(** ** Examples *)

Example replace_ex1 : cacheKey "file:///proj/a.ts" = "/proj/a.ts".
Proof. reflexivity. Qed.

Example replace_ex2 : cacheKey "file://file:///a.ts" = "file:///a.ts".
Proof. reflexivity. Qed.

Example cache_ex1 :
  cacheDenoInfo {| redirects := [("jsr:@a/b", "https://jsr.io/@a/b/1.0.0/mod.ts")];
                   modules := [esm "https://jsr.io/@a/b/1.0.0/mod.ts" (Some "/tmp/b.ts") "TypeScript"] |}
                ∅ !! "jsr:@a/b"
  = Some {| localPath := Some "/tmp/b.ts";
            redirected := "https://jsr.io/@a/b/1.0.0/mod.ts";
            moduleType := Some Ts |}.
Proof. vm_compute. reflexivity. Qed.

Example extract_ex1 :
  extractPackageAndPath "jsr:@std/path@^1.0.8/to-file-url"
  = (Some "@std/path", Some "to-file-url").
Proof. vm_compute. reflexivity. Qed.

Example extract_ex2 : extractPackageAndPath "@//@" = (None, None).
Proof. vm_compute. reflexivity. Qed.

(** ** What a projection writes *)

Lemma cacheRedirects_snoc spec res rs kv cache :
  cacheRedirects spec res (rs ++ [kv]) cache
  = if String.eqb (snd kv) spec
    then <[cacheKey (fst kv) := res]> (cacheRedirects spec res rs cache)
    else cacheRedirects spec res rs cache.
Proof. unfold cacheRedirects. by rewrite foldl_snoc. Qed.

Lemma redirectKeys_snoc spec rs kv :
  redirectKeys spec (rs ++ [kv])
  = (redirectKeys spec rs
     ++ if String.eqb (snd kv) spec then [cacheKey (fst kv)] else [])%list.
Proof.
  unfold redirectKeys. rewrite List.filter_app, map_app. simpl.
  by destruct (String.eqb (snd kv) spec).
Qed.

Lemma cacheRedirects_lookup spec res rs cache k :
  cacheRedirects spec res rs cache !! k
  = if decide (k ∈ redirectKeys spec rs) then Some res else cache !! k.
Proof.
  induction rs as [|kv rs IH] using rev_ind.
  - change (redirectKeys spec []) with (@nil string).
    rewrite decide_False by apply not_elem_of_nil. done.
  - rewrite cacheRedirects_snoc, redirectKeys_snoc.
    destruct (String.eqb (snd kv) spec).
    + destruct (decide (cacheKey (fst kv) = k)) as [<-|Hne].
      * rewrite lookup_insert_eq, decide_True by set_solver. done.
      * rewrite lookup_insert_ne, IH by done.
        destruct (decide (k ∈ redirectKeys spec rs)) as [Hin|Hin].
        -- rewrite decide_True by set_solver. done.
        -- rewrite decide_False by set_solver. done.
    + rewrite IH, app_nil_r. done.
Qed.

Lemma cacheModule_lookup rs cache details k :
  cacheModule rs cache details !! k
  = if decide (k ∈ moduleKeys rs details) then moduleResult details
    else cache !! k.
Proof.
  unfold cacheModule, moduleKeys, moduleResult.
  destruct (specifier details) as [spec|], (npm_package details),
    (mediaType details) as [mt|];
    try (rewrite decide_False by apply not_elem_of_nil; done).
  rewrite cacheRedirects_lookup.
  destruct (decide (k ∈ redirectKeys spec rs)) as [H1|H1].
  - rewrite decide_True by set_solver. done.
  - destruct (decide (cacheKey spec = k)) as [<-|H2].
    + rewrite lookup_insert_eq, decide_True by set_solver. done.
    + rewrite lookup_insert_ne, decide_False by set_solver. done.
Qed.

Lemma moduleKeys_result rs details k :
  k ∈ moduleKeys rs details -> is_Some (moduleResult details).
Proof.
  unfold moduleKeys, moduleResult.
  destruct (specifier details), (npm_package details), (mediaType details);
    intros H; try (by apply elem_of_nil in H); eauto.
Qed.

Lemma cacheDenoInfo_snoc rs ms d cache :
  cacheDenoInfo {| redirects := rs; modules := ms ++ [d] |} cache
  = cacheModule rs (cacheDenoInfo {| redirects := rs; modules := ms |} cache) d.
Proof. unfold cacheDenoInfo; simpl. by rewrite foldl_snoc. Qed.

(** A key the report does not write keeps what it had. *)
Lemma cacheDenoInfo_lookup_other info cache k :
  k ∉ reportKeys info -> cacheDenoInfo info cache !! k = cache !! k.
Proof.
  destruct info as [rs ms]. unfold reportKeys; simpl.
  induction ms as [|d ms IH] using rev_ind; [done|].
  rewrite flat_map_app; simpl. rewrite app_nil_r. intros Hk.
  rewrite cacheDenoInfo_snoc, cacheModule_lookup.
  rewrite decide_False by set_solver. apply IH. set_solver.
Qed.

(** A key the report writes is present afterwards. *)
Lemma cacheDenoInfo_lookup_written info cache k :
  k ∈ reportKeys info -> is_Some (cacheDenoInfo info cache !! k).
Proof.
  destruct info as [rs ms]. unfold reportKeys; simpl.
  induction ms as [|d ms IH] using rev_ind.
  - intros H. by apply elem_of_nil in H.
  - rewrite flat_map_app; simpl. rewrite app_nil_r. intros Hk.
    rewrite cacheDenoInfo_snoc, cacheModule_lookup.
    case_decide as Hd; [by eapply moduleKeys_result|].
    apply IH. set_solver.
Qed.

(** A projection never removes a key. *)
Lemma cacheDenoInfo_keeps info cache k :
  is_Some (cache !! k) -> is_Some (cacheDenoInfo info cache !! k).
Proof.
  intros Hk. destruct (decide (k ∈ reportKeys info)) as [Hin|Hin].
  - by apply cacheDenoInfo_lookup_written.
  - by rewrite cacheDenoInfo_lookup_other.
Qed.

(** The last record that writes a key decides its entry. *)
Lemma cacheDenoInfo_lookup_last rs pre d post cache k :
  k ∈ moduleKeys rs d ->
  k ∉ flat_map (moduleKeys rs) post ->
  cacheDenoInfo {| redirects := rs; modules := pre ++ d :: post |} cache !! k
  = moduleResult d.
Proof.
  intros Hd. induction post as [|d' post IH] using rev_ind; intros Hpost.
  - rewrite cacheDenoInfo_snoc, cacheModule_lookup. by rewrite decide_True.
  - rewrite flat_map_app in Hpost; simpl in Hpost. rewrite app_nil_r in Hpost.
    replace (pre ++ d :: post ++ [d'])%list with ((pre ++ d :: post) ++ [d'])%list
      by (by rewrite <- app_assoc).
    rewrite cacheDenoInfo_snoc, cacheModule_lookup.
    rewrite decide_False by set_solver. apply IH. set_solver.
Qed.

(** ** The body of [denoResolve], step by step *)

Lemma denoResolve_body_eq specifier r st :
  denoResolve_body specifier r st
  = (outcome specifier r (resolveDenoInfoCache st),
     {| resolveDenoInfoCache := cacheAfter r (resolveDenoInfoCache st);
        resolvePromises := delete specifier (resolvePromises st);
        promises := promises st; spawned := spawned st |}).
Proof.
  unfold denoResolve_body, try_finally, bind, liftE, cache_modify, cache_get,
    outcome, cacheAfter, resolvePromises_delete, throw, ret.
  destruct (denoInfo_resume r) as [e|info]; simpl; [done|].
  by destruct (cacheDenoInfo info (resolveDenoInfoCache st) !! specifier).
Qed.

Lemma resume_pending promise specifier r st :
  promises st !! promise = Some (Pending specifier) ->
  resume promise r st
  = {| resolveDenoInfoCache := cacheAfter r (resolveDenoInfoCache st);
       resolvePromises := delete specifier (resolvePromises st);
       promises := <[promise := settled (outcome specifier r (resolveDenoInfoCache st))]>
                     (promises st);
       spawned := spawned st |}.
Proof.
  intros H. unfold resume. rewrite H, denoResolve_body_eq. reflexivity.
Qed.

Lemma resume_not_pending promise r st :
  (forall specifier, promises st !! promise <> Some (Pending specifier)) ->
  resume promise r st = st.
Proof.
  intros H. unfold resume. destruct (promises st !! promise) as [[s| |]|] eqn:E; try done.
  by destruct (H s).
Qed.

Lemma cacheAfter_keeps r cache k :
  is_Some (cache !! k) -> is_Some (cacheAfter r cache !! k).
Proof.
  unfold cacheAfter. destruct (denoInfo_resume r); [done|]. apply cacheDenoInfo_keeps.
Qed.

(** ** The in-flight invariant *)

Lemma Inv_newEngine : Inv newEngine.
Proof. split; intros ? ?; simpl; [by rewrite lookup_empty | done]. Qed.

Lemma Inv_cache_modify f st : Inv st -> Inv (snd (cache_modify f st)).
Proof. intros [H1 H2]. split; simpl; auto. Qed.

Lemma Inv_denoResolve specifier st : Inv st -> Inv (snd (denoResolve specifier st)).
Proof.
  intros [H1 H2]. unfold denoResolve.
  destruct (resolveDenoInfoCache st !! specifier) as [c|] eqn:Ec; simpl.
  - split; simpl.
    + intros s p Hs. apply H1 in Hs. by apply lookup_app_l_Some.
    + intros p s Hp. apply lookup_app_Some in Hp as [Hp|[_ Hp]]; [by apply H2|].
      destruct (p - length (promises st)) as [|n]; simpl in Hp; [done|].
      by rewrite lookup_nil in Hp.
  - destruct (resolvePromises st !! specifier) as [q|] eqn:Ep; simpl; [by split|].
    split; simpl.
    + intros s p Hs. destruct (decide (specifier = s)) as [<-|Hne].
      * rewrite lookup_insert_eq in Hs. injection Hs as <-.
        rewrite lookup_app_r by lia. by rewrite Nat.sub_diag.
      * rewrite lookup_insert_ne in Hs by done.
        apply H1 in Hs. by apply lookup_app_l_Some.
    + intros p s Hp. apply lookup_app_Some in Hp as [Hp|[Hge Hp]].
      * apply H2 in Hp as Hs. rewrite lookup_insert_ne; [done|].
        intros <-. congruence.
      * destruct (p - length (promises st)) as [|n] eqn:En; simpl in Hp;
          [|by rewrite lookup_nil in Hp].
        injection Hp as <-. assert (p = length (promises st)) as -> by lia.
        apply lookup_insert_eq.
Qed.

Lemma Inv_resume promise r st : Inv st -> Inv (resume promise r st).
Proof.
  intros [H1 H2]. unfold resume.
  destruct (promises st !! promise) as [[specifier| |]|] eqn:Ep; try by split.
  rewrite denoResolve_body_eq; simpl. split; simpl.
  - intros s p Hs.
    destruct (decide (specifier = s)) as [<-|Hne];
      [by rewrite lookup_delete_eq in Hs|].
    rewrite lookup_delete_ne in Hs by done. apply H1 in Hs as Hp.
    rewrite list_lookup_insert_ne; [done|]. intros <-. congruence.
  - intros p s Hp.
    destruct (decide (promise = p)) as [<-|Hne].
    + rewrite list_lookup_insert_eq in Hp by (by eapply lookup_lt_Some).
      destruct (outcome specifier r (resolveDenoInfoCache st)); simpl in Hp; done.
    + rewrite list_lookup_insert_ne in Hp by done.
      apply H2 in Hp as Hs. rewrite lookup_delete_ne; [done|].
      intros <-. apply H2 in Ep. congruence.
Qed.

Lemma Inv_step st ev : Inv st -> Inv (step st ev).
Proof.
  destruct ev; simpl.
  - apply Inv_cache_modify.
  - apply Inv_denoResolve.
  - apply Inv_resume.
Qed.

Lemma run_snoc evs ev st : run (evs ++ [ev]) st = step (run evs st) ev.
Proof. unfold run. by rewrite foldl_snoc. Qed.

Lemma Inv_run evs st : Inv st -> Inv (run evs st).
Proof.
  revert st. induction evs as [|ev evs IH]; intros st H; [done|].
  simpl. apply IH. by apply Inv_step.
Qed.

Lemma Inv_reachable evs : Inv (run evs newEngine).
Proof. apply Inv_run, Inv_newEngine. Qed.

(** ** Properties of the package-path expression *)

Module RegexFacts.
Import Regex.

#[local] Arguments Ascii.eqb : simpl never.

Lemma flat_map_nil {A B} (f : A -> list B) (l : list A) :
  (forall x, In x l -> f x = []) -> flat_map f l = [].
Proof.
  induction l as [|a l IH]; intros H; [done|]. simpl.
  rewrite (H a) by (by left). apply IH. intros x Hx. apply H. by right.
Qed.

(** Relations between the state before and a state after a matcher. *)
Section Respects.
Variable R : MatchState -> MatchState -> Prop.
Hypothesis R_refl : forall st, R st st.
Hypothesis R_trans : forall a b c, R a b -> R b c -> R a c.
Hypothesis R_set_rest : forall st s,
  String.length s <= String.length (rest st) -> R st (set_rest st s).

Lemma respects_eps : respects R eps.
Proof. intros st st' [<-|[]]. apply R_refl. Qed.

Lemma respects_seq m1 m2 :
  respects R m1 -> respects R m2 -> respects R (seq m1 m2).
Proof.
  intros H1 H2 st st' Hin. apply in_flat_map in Hin as (mid & Ha & Hb).
  exact (R_trans _ _ _ (H1 _ _ Ha) (H2 _ _ Hb)).
Qed.

Lemma respects_alt m1 m2 :
  respects R m1 -> respects R m2 -> respects R (alt m1 m2).
Proof. intros H1 H2 st st' Hin. apply in_app_or in Hin as [?|?]; auto. Qed.

Lemma respects_optional m : respects R m -> respects R (optional m).
Proof. intros H. apply respects_alt; [done | apply respects_eps]. Qed.

Lemma respects_class f : respects R (class f).
Proof.
  intros st st'. unfold class. destruct (rest st) as [|c s] eqn:E; [done|].
  destruct (f c); [|done]. intros [<-|[]]. apply R_set_rest. rewrite E. simpl. lia.
Qed.

Lemma star_rests_length f s s' :
  In s' (star_rests f s) -> String.length s' <= String.length s.
Proof.
  revert s'. induction s as [|c s IH]; intros s'; simpl.
  - intros [<-|[]]. done.
  - destruct (f c).
    + intros Hin. apply in_app_or in Hin as [Hin|[<-|[]]]; simpl; [|lia].
      apply IH in Hin. lia.
    + intros [<-|[]]. simpl. lia.
Qed.

Lemma respects_star f : respects R (star f).
Proof.
  intros st st' Hin. apply in_map_iff in Hin as (s' & <- & Hs').
  apply R_set_rest. by apply (star_rests_length f).
Qed.

Lemma respects_plus f : respects R (plus f).
Proof.
  intros st st'. unfold plus. destruct (rest st) as [|c s] eqn:E; [done|].
  destruct (f c); [|done]. intros Hin.
  apply in_map_iff in Hin as (s' & <- & Hs').
  apply R_set_rest. apply star_rests_length in Hs'. rewrite E. simpl. lia.
Qed.

Lemma dot_rests_length s s' :
  In s' (dot_rests s) -> String.length s' <= String.length s.
Proof.
  revert s'. induction s as [|c s IH]; intros s'.
  - intros [<-|[]]. done.
  - change (dot_rests (String c s))
      with (if dot (String c s) then (dot_rests s ++ [String c s])%list
            else [String c s]).
    destruct (dot (String c s)).
    + intros Hin. apply in_app_or in Hin as [Hin|[<-|[]]]; simpl; [|lia].
      apply IH in Hin. lia.
    + intros [<-|[]]. simpl. lia.
Qed.

Lemma respects_plusDot : respects R plusDot.
Proof.
  intros st st'. unfold plusDot. destruct (rest st) as [|c s] eqn:E; [done|].
  destruct (dot (String c s)); [|done]. intros Hin.
  apply in_map_iff in Hin as (s' & <- & Hs').
  apply R_set_rest. apply dot_rests_length in Hs'. rewrite E. simpl. lia.
Qed.

End Respects.

Lemma shorter_refl st : shorter st st.
Proof. unfold shorter. lia. Qed.

Lemma shorter_trans a b c : shorter a b -> shorter b c -> shorter a c.
Proof. unfold shorter. lia. Qed.

Lemma shorter_set_rest st s :
  String.length s <= String.length (rest st) -> shorter st (set_rest st s).
Proof. done. Qed.

Lemma sameGroup1_refl st : sameGroup1 st st.
Proof. done. Qed.

Lemma sameGroup1_trans a b c : sameGroup1 a b -> sameGroup1 b c -> sameGroup1 a c.
Proof. unfold sameGroup1. congruence. Qed.

Lemma sameGroup1_set_rest st s :
  String.length s <= String.length (rest st) -> sameGroup1 st (set_rest st s).
Proof. done. Qed.

(** [[f]+] reads at least one character. *)
Lemma plus_strict f st st' :
  In st' (plus f st) -> String.length (rest st') < String.length (rest st).
Proof.
  unfold plus. destruct (rest st) as [|c s] eqn:E; [done|].
  destruct (f c); [|done]. intros Hin.
  apply in_map_iff in Hin as (s' & <- & Hs').
  apply star_rests_length in Hs'. simpl. lia.
Qed.

Lemma consumed_nonempty before after :
  String.length after < String.length before ->
  consumed before after <> EmptyString.
Proof.
  unfold consumed. intros H.
  destruct before as [|c s]; [simpl in H; lia|].
  replace (String.length (String c s) - String.length after)
    with (S (String.length s - String.length after)) by (simpl in *; lia).
  done.
Qed.

(** Capture 1 of a match of [package] is never empty. *)
Lemma package_group1 st st' :
  In st' (package st) ->
  exists g, group1 st' = Some g /\ g <> EmptyString.
Proof.
  unfold package, capture1. intros Hin.
  apply in_map_iff in Hin as (mid & <- & Hmid). simpl.
  eexists; split; [done|]. apply consumed_nonempty.
  apply in_app_or in Hmid as [Hmid|Hmid]; [|by apply plus_strict in Hmid].
  apply in_flat_map in Hmid as (a & Ha & Hmid).
  apply in_flat_map in Hmid as (b & Hb & Hmid).
  apply in_flat_map in Hmid as (c & Hc & Hmid).
  assert (respects shorter (optional (lit "@"))) as Hopt
    by (apply (respects_optional shorter shorter_refl),
              (respects_class shorter shorter_set_rest)).
  apply Hopt in Ha.
  apply (respects_class shorter shorter_set_rest) in Hc.
  apply plus_strict in Hb, Hmid. unfold shorter in *. lia.
Qed.

Lemma capture2_sameGroup1 m : respects sameGroup1 m -> respects sameGroup1 (capture2 m).
Proof.
  intros H st st' Hin. apply in_map_iff in Hin as (mid & <- & Hmid).
  unfold sameGroup1; simpl. by apply H.
Qed.

Lemma tail_sameGroup1 : respects sameGroup1 (seq version subpath).
Proof.
  assert (forall f, respects sameGroup1 (class f)) as Hclass
    by (intros f; apply (respects_class sameGroup1 sameGroup1_set_rest)).
  unfold version, subpath, lit.
  apply (respects_seq sameGroup1 sameGroup1_trans);
    apply (respects_optional sameGroup1 sameGroup1_refl);
    (apply (respects_seq sameGroup1 sameGroup1_trans); [apply Hclass|]).
  - apply (respects_star sameGroup1 sameGroup1_set_rest).
  - apply capture2_sameGroup1, (respects_plusDot sameGroup1 sameGroup1_set_rest).
Qed.

(** Every match of the whole expression has a non-empty capture 1. *)
Lemma regex_group1 st st' :
  In st' (regex st) -> exists g, group1 st' = Some g /\ g <> EmptyString.
Proof.
  unfold regex. intros Hin.
  apply in_flat_map in Hin as (a & _ & Hin).
  apply in_flat_map in Hin as (b & Hb & Hin).
  apply package_group1 in Hb as (g & Hg & Hne).
  apply tail_sameGroup1 in Hin. exists g. split; [|done].
  unfold sameGroup1 in Hin. congruence.
Qed.

Lemma optional_skip m st : In st (optional m st).
Proof. unfold optional, alt, eps. apply in_or_app. right. by left. Qed.

Lemma star_rests_self f s : In s (star_rests f s).
Proof.
  destruct s as [|c s]; simpl; [by left|].
  destruct (f c); [apply in_or_app; right|]; by left.
Qed.

(** Where the input starts with a character other than a slash or an
    at-sign, the expression matches. *)
Lemma regex_matches st c s :
  rest st = String c s -> notSlashAt c = true -> regex st <> [].
Proof.
  intros E Hc.
  assert (In (set_rest st s) (plus notSlashAt st)) as Hp.
  { unfold plus. rewrite E, Hc. apply in_map, star_rests_self. }
  assert (exists st', In st' (regex st)) as [st' Hin];
    [|by intros H; rewrite H in Hin].
  eexists. unfold regex, seq.
  apply in_flat_map. exists st. split; [apply optional_skip|].
  apply in_flat_map. eexists. split.
  { unfold package, capture1. apply in_map, in_or_app. right. exact Hp. }
  apply in_flat_map. eexists. split; apply optional_skip.
Qed.

(** The prefixes and suffixes a class can leave of a string of slashes
    and at-signs are again such strings. *)
Lemma star_rests_noShape f s s' :
  noPackageShape s = true -> In s' (star_rests f s) -> noPackageShape s' = true.
Proof.
  revert s'. induction s as [|c s IH]; intros s' Hs; simpl.
  - by intros [<-|[]].
  - simpl in Hs. apply andb_true_iff in Hs as [Hc Hs].
    destruct (f c).
    + intros Hin. apply in_app_or in Hin as [Hin|[<-|[]]]; [by apply IH|].
      simpl. by rewrite Hc, Hs.
    + intros [<-|[]]. simpl. by rewrite Hc, Hs.
Qed.

Lemma plus_notSlashAt_noShape st :
  noPackageShape (rest st) = true -> plus notSlashAt st = [].
Proof.
  unfold plus. destruct (rest st) as [|c s]; [done|]. simpl.
  intros H. apply andb_true_iff in H as [Hc _].
  by destruct (notSlashAt c).
Qed.

Lemma colon_noShape st :
  noPackageShape (rest st) = true -> lit ":" st = [].
Proof.
  unfold lit, class. destruct (rest st) as [|c s]; [done|]. simpl.
  intros H. apply andb_true_iff in H as [Hc _].
  destruct (Ascii.eqb ":" c) eqn:E; [|done].
  apply Ascii.eqb_eq in E. subst c. done.
Qed.

(** On a string of slashes and at-signs the expression does not match. *)
Lemma regex_noShape s : noPackageShape s = true -> regex (start s) = [].
Proof.
  intros Hs. unfold regex, seq at 1.
  assert (scheme (start s) = [start s]) as ->.
  { unfold scheme, optional, alt, seq at 1.
    rewrite flat_map_nil; [done|]. intros a Ha. unfold seq.
    rewrite colon_noShape; [done|].
    unfold plus in Ha. simpl in Ha. destruct s as [|c s]; [done|].
    destruct (notColon c); [|done].
    apply in_map_iff in Ha as (s' & <- & Hs'). simpl.
    simpl in Hs. apply andb_true_iff in Hs as [_ Hs].
    by apply (star_rests_noShape notColon s). }
  simpl. rewrite app_nil_r. unfold seq at 1.
  assert (package (start s) = []) as ->; [|done].
  unfold package, capture1, alt.
  rewrite (plus_notSlashAt_noShape (start s)) by done.
  rewrite app_nil_r. unfold seq at 1.
  rewrite flat_map_nil; [done|]. intros a Ha. unfold seq at 1.
  rewrite plus_notSlashAt_noShape; [done|].
  apply in_app_or in Ha as [Ha|[<-|[]]]; [|done].
  unfold lit, class in Ha. simpl in Ha. destruct s as [|c s]; [done|].
  destruct (Ascii.eqb "@" c); [|done]. destruct Ha as [<-|[]]. simpl.
  simpl in Hs. by apply andb_true_iff in Hs as [_ Hs].
Qed.

Lemma exec_eq m s :
  exec m s = match head (m (start s)) with
             | Some st => Some st
             | None => match s with
                       | EmptyString => None
                       | String _ s' => exec m s'
                       end
             end.
Proof. by destruct s. Qed.

Lemma exec_noShape s : noPackageShape s = true -> exec regex s = None.
Proof.
  induction s as [|c s IH]; intros Hs; rewrite exec_eq, regex_noShape by done.
  - done.
  - apply IH. simpl in Hs. by apply andb_true_iff in Hs as [_ Hs].
Qed.

Lemma exec_In m s st :
  exec m s = Some st -> exists s', In st (m (start s')).
Proof.
  induction s as [|c s IH]; rewrite exec_eq.
  - destruct (m (start EmptyString)) as [|a l] eqn:E; simpl; [done|].
    intros [= <-]. exists EmptyString. rewrite E. by left.
  - destruct (m (start (String c s))) as [|a l] eqn:E; simpl; [by apply IH|].
    intros [= <-]. exists (String c s). rewrite E. by left.
Qed.

Lemma exec_shape s : noPackageShape s = false -> is_Some (exec regex s).
Proof.
  induction s as [|c s IH]; intros Hs; [done|].
  rewrite exec_eq.
  destruct (regex (start (String c s))) as [|a l] eqn:E; simpl; [|by eexists].
  simpl in Hs. apply andb_false_iff in Hs as [Hc|Hs]; [|by apply IH].
  apply negb_false_iff in Hc.
  by destruct (regex_matches (start (String c s)) c s eq_refl Hc).
Qed.

End RegexFacts.

(** The package name is [null] exactly on the strings of slashes and
    at-signs, and there the subpath is [null] too. *)
Lemma extractPackageAndPath_null s :
  extractPackageAndPath s = (None, None) <-> noPackageShape s = true.
Proof.
  unfold extractPackageAndPath. split.
  - destruct (noPackageShape s) eqn:Hs; [done|].
    destruct (RegexFacts.exec_shape s Hs) as [m Hm]. rewrite Hm.
    apply RegexFacts.exec_In in Hm as (s' & Hin).
    apply RegexFacts.regex_group1 in Hin as (g & -> & Hg).
    destruct g; [done|]. simpl. done.
  - intros Hs. by rewrite RegexFacts.exec_noShape.
Qed.

(** ** Stored keys *)

Lemma prefix_length p s : String.prefix p s = true -> String.length p <= String.length s.
Proof.
  revert s. induction p as [|a p IH]; intros [|b s]; simpl; try done; try lia.
  destruct (ascii_dec a b); [|done]. intros H. apply IH in H. lia.
Qed.

Lemma string_drop_length n s : String.length (string_drop n s) = String.length s - n.
Proof.
  revert s. induction n as [|n IH]; intros [|c s]; simpl; auto.
Qed.

(** A specifier that starts with the file scheme is stored under another key. *)
Lemma cacheKey_file s : startsWith s "file://" = true -> cacheKey s <> s.
Proof.
  unfold startsWith, cacheKey. intros H E.
  assert (String.length (replace "file://" "" s) = String.length s) as Hlen
    by (by rewrite E).
  apply prefix_length in H as Hp.
  destruct s as [|c s]; [done|].
  unfold replace in Hlen; fold replace in Hlen. rewrite H in Hlen.
  change ("" ++ ?x) with x in Hlen.
  rewrite string_drop_length in Hlen. simpl in *. lia.
Qed.

(** A specifier without the file scheme in it is its own key. *)
Lemma cacheKey_id s : includes s "file://" = false -> cacheKey s = s.
Proof.
  unfold cacheKey. induction s as [|c s IH]; [done|].
  unfold includes; fold includes. intros H.
  apply orb_false_iff in H as [H1 H2].
  unfold replace; fold replace. rewrite H1. f_equal. by apply IH.
Qed.

(** ** Calls of [denoResolve], case by case *)

Lemma denoResolve_hit specifier st c :
  resolveDenoInfoCache st !! specifier = Some c ->
  denoResolve specifier st
  = (length (promises st),
     {| resolveDenoInfoCache := resolveDenoInfoCache st;
        resolvePromises := resolvePromises st;
        promises := (promises st ++ [Fulfilled c])%list;
        spawned := spawned st |}).
Proof. intros H. unfold denoResolve. by rewrite H. Qed.

Lemma denoResolve_join specifier st p :
  resolveDenoInfoCache st !! specifier = None ->
  resolvePromises st !! specifier = Some p ->
  denoResolve specifier st = (p, st).
Proof. intros H1 H2. unfold denoResolve. by rewrite H1, H2. Qed.

Lemma denoResolve_start specifier st :
  resolveDenoInfoCache st !! specifier = None ->
  resolvePromises st !! specifier = None ->
  denoResolve specifier st
  = (length (promises st),
     {| resolveDenoInfoCache := resolveDenoInfoCache st;
        resolvePromises := <[specifier := length (promises st)]> (resolvePromises st);
        promises := (promises st ++ [Pending specifier])%list;
        spawned := (spawned st ++ [specifier])%list |}).
Proof. intros H1 H2. unfold denoResolve. by rewrite H1, H2. Qed.

(** A call answered from the cache returns a promise fulfilled with the entry. *)
Lemma denoResolve_hit_await specifier st c :
  resolveDenoInfoCache st !! specifier = Some c ->
  await (snd (denoResolve specifier st)) (fst (denoResolve specifier st))
  = Some (inr c).
Proof.
  intros H. rewrite (denoResolve_hit _ _ c) by done.
  unfold await; simpl. by rewrite lookup_app_r, Nat.sub_diag by lia.
Qed.

(** A call never touches the cache. *)
Lemma denoResolve_cache specifier st :
  resolveDenoInfoCache (snd (denoResolve specifier st)) = resolveDenoInfoCache st.
Proof.
  unfold denoResolve. destruct (resolveDenoInfoCache st !! specifier); [done|].
  by destruct (resolvePromises st !! specifier).
Qed.

(** After a call that missed the cache the specifier is in flight, and
    the caller holds the promise of the in-flight entry. *)
Lemma denoResolve_miss specifier st :
  resolveDenoInfoCache st !! specifier = None ->
  resolvePromises (snd (denoResolve specifier st)) !! specifier
  = Some (fst (denoResolve specifier st)).
Proof.
  intros H. destruct (resolvePromises st !! specifier) as [p|] eqn:E.
  - by rewrite (denoResolve_join _ _ p).
  - rewrite denoResolve_start by done. simpl. apply lookup_insert_eq.
Qed.

(** Further calls for a specifier in flight all join it. *)
Lemma denoResolveN_join n specifier st p :
  resolveDenoInfoCache st !! specifier = None ->
  resolvePromises st !! specifier = Some p ->
  denoResolveN n specifier st = (replicate n p, st).
Proof.
  intros H1 H2. induction n as [|n IH]; [done|].
  simpl. rewrite (denoResolve_join _ _ p) by done. simpl. by rewrite IH.
Qed.

Lemma await_settle st p res :
  p < length (promises st) ->
  await (promise_settle p (settled res) st) p = Some res.
Proof.
  intros H. unfold await, promise_settle; simpl.
  rewrite list_lookup_insert_eq by done. by destruct res.
Qed.

Lemma await_resume st p specifier r :
  promises st !! p = Some (Pending specifier) ->
  await (resume p r st) p = Some (outcome specifier r (resolveDenoInfoCache st)).
Proof.
  intros H. rewrite (resume_pending _ specifier) by done.
  unfold await; simpl. apply lookup_lt_Some in H.
  rewrite list_lookup_insert_eq by done.
  by destruct (outcome specifier r (resolveDenoInfoCache st)).
Qed.

(** A successful body returns what the cache then holds for the specifier. *)
Lemma outcome_cached specifier r cache e :
  outcome specifier r cache = inr e -> cacheAfter r cache !! specifier = Some e.
Proof.
  unfold outcome, cacheAfter. destruct (denoInfo_resume r) as [err|info]; [done|].
  destruct (cacheDenoInfo info cache !! specifier); [|done]. by intros [= ->].
Qed.

(** ** While a discovery is in flight *)

Lemma step_promises_length st ev :
  length (promises st) <= length (promises (step st ev)).
Proof.
  destruct ev as [info|s|p r]; simpl; [done| |].
  - unfold denoResolve. destruct (resolveDenoInfoCache st !! s); simpl.
    + rewrite length_app. lia.
    + destruct (resolvePromises st !! s); simpl; [done|]. rewrite length_app. lia.
  - unfold resume. destruct (promises st !! p) as [[s| |]|]; try done.
    rewrite denoResolve_body_eq. simpl. by rewrite length_insert.
Qed.

Lemma run_promises_length evs st :
  length (promises st) <= length (promises (run evs st)).
Proof.
  induction evs as [|ev evs IH] using rev_ind; [done|].
  rewrite run_snoc. pose proof (step_promises_length (run evs st) ev). lia.
Qed.

(** A promise that is pending after an event was pending before it. *)
Lemma step_pending_back st ev p s :
  p < length (promises st) ->
  promises (step st ev) !! p = Some (Pending s) ->
  promises st !! p = Some (Pending s).
Proof.
  intros Hlt. destruct ev as [info|s'|q r]; simpl; [done| |].
  - unfold denoResolve. destruct (resolveDenoInfoCache st !! s'); simpl.
    + by rewrite lookup_app_l.
    + destruct (resolvePromises st !! s'); simpl; [done|]. by rewrite lookup_app_l.
  - unfold resume. destruct (promises st !! q) as [[s'| |]|] eqn:Eq; try done.
    rewrite denoResolve_body_eq. simpl.
    destruct (decide (q = p)) as [->|Hne].
    + rewrite list_lookup_insert_eq by done.
      by destruct (outcome s' r (resolveDenoInfoCache st)).
    + by rewrite list_lookup_insert_ne.
Qed.

Lemma filter_snoc_other s s' (l : list string) :
  s <> s' ->
  List.filter (String.eqb s) (l ++ [s']) = List.filter (String.eqb s) l.
Proof.
  intros Hne. rewrite List.filter_app. simpl.
  destruct (String.eqb_spec s s'); [done|]. by rewrite app_nil_r.
Qed.

(** While a discovery for [s] is in flight no event starts another. *)
Lemma step_invocations st ev p s :
  Inv st ->
  promises st !! p = Some (Pending s) ->
  invocations s (step st ev) = invocations s st.
Proof.
  intros HI Hp. apply (inv_pending _ HI) in Hp as Hfl.
  unfold invocations. destruct ev as [info|s'|q r]; simpl; [done| |].
  - unfold denoResolve. destruct (resolveDenoInfoCache st !! s'); [done|].
    destruct (resolvePromises st !! s') eqn:E; [done|]. simpl.
    rewrite filter_snoc_other; [done|]. intros <-. congruence.
  - unfold resume. destruct (promises st !! q) as [[s'| |]|]; try done.
    by rewrite denoResolve_body_eq.
Qed.

Lemma run_in_flight evs st p s :
  Inv st ->
  p < length (promises st) ->
  promises (run evs st) !! p = Some (Pending s) ->
  promises st !! p = Some (Pending s)
  /\ p < length (promises (run evs st))
  /\ invocations s (run evs st) = invocations s st.
Proof.
  intros HI Hlt. induction evs as [|ev evs IH] using rev_ind; [done|].
  rewrite run_snoc. intros Hp.
  pose proof (run_promises_length evs st) as Hlt'.
  apply step_pending_back in Hp as Hp'; [|lia].
  destruct (IH Hp') as (H1 & H2 & H3). split; [done|]. split.
  - pose proof (step_promises_length (run evs st) ev). lia.
  - rewrite <- H3. eapply step_invocations; [by apply Inv_run | done].
Qed.

(** ** Concurrent resolutions (C1) *)



(** ** Sequential resolutions (C2) *)

Lemma denoResolve_fst_lt specifier st :
  Inv st ->
  fst (denoResolve specifier st) < length (promises (snd (denoResolve specifier st))).
Proof.
  intros HI. unfold denoResolve.
  destruct (resolveDenoInfoCache st !! specifier); simpl.
  - rewrite length_app. simpl. lia.
  - destruct (resolvePromises st !! specifier) as [p|] eqn:E; simpl.
    + apply (inv_inflight _ HI) in E. by apply lookup_lt_Some in E.
    + rewrite length_app. simpl. lia.
Qed.

Lemma denoResolve_invocations_le specifier s st :
  invocations s (snd (denoResolve specifier st)) <= S (invocations s st).
Proof.
  unfold invocations, denoResolve.
  destruct (resolveDenoInfoCache st !! specifier); simpl; [lia|].
  destruct (resolvePromises st !! specifier); simpl; [lia|].
  rewrite List.filter_app, length_app. simpl.
  destruct (String.eqb s specifier); simpl; lia.
Qed.




(** ** The cache-consistency failure (C5) *)

(** C5. When the subprocess awaited for [s] settles, the resolution is
    rejected with the cache-consistency error exactly when the discovery
    gave a report and the cache, after the whole report has been projected
    into it, has no entry under [s]. The rejection is what every awaiting
    hook rethrows; nothing is retried: no subprocess is started, and
    nothing stays in flight for [s]. A resolution that needs no discovery,
    being answered from the cache, does not fail. *)
Theorem cache_consistency_error_iff
    (evs : list Event) (p : nat) (s : string) (r : CommandSettled)
    (readTextFile : string -> Error + string) :
  let st := run evs newEngine in
  promises st !! p = Some (Pending s) ->
  let st' := resume p r st in
  (await st' p = Some (inl SpecifierNotFound)
   <-> exists info, denoInfo_resume r = inr info
                    /\ cacheDenoInfo info (resolveDenoInfoCache st) !! s = None)
  /\ isCacheConsistencyError SpecifierNotFound = true
  /\ load_resume readTextFile (inl SpecifierNotFound) = inl SpecifierNotFound
  /\ resolveId_resume (inl SpecifierNotFound) = inl SpecifierNotFound
  /\ spawned st' = spawned st
  /\ resolvePromises st' !! s = None
  /\ (forall q, promises st' !! q <> Some (Pending s))
  /\ (forall s' c,
        resolveDenoInfoCache st !! s' = Some c ->
        await (snd (denoResolve s' st)) (fst (denoResolve s' st)) = Some (inr c)).
Proof.
  intros st Hp st'. subst st'.
  pose proof (Inv_resume p r st (Inv_reachable evs)) as HI'.
  rewrite (await_resume _ _ s) by done.
  assert (resolvePromises (resume p r st) !! s = None) as Hgone.
  { rewrite (resume_pending _ s) by done. simpl. apply lookup_delete_eq. }
  split; [|repeat split; try done].
  - unfold outcome. split.
    + intros [= H]. destruct (denoInfo_resume r) as [err|info] eqn:E.
      * injection H as ->.
        destruct r as [|o]; simpl in E; [done|].
        by destruct (stdout o).
      * exists info. split; [done|].
        by destruct (cacheDenoInfo info (resolveDenoInfoCache st) !! s).
    + intros (info & -> & ->). done.
  - by rewrite (resume_pending _ s).
  - intros q Hq. apply (inv_pending _ HI') in Hq. congruence.
  - intros s' c Hc. by apply denoResolve_hit_await.
Qed.

Lemma cache_consistency_error_witness :
  await (resume 0 (exited 0 (JsonReport {| redirects := []; modules := [] |}))
           (run [CallDenoResolve "jsr:@a/b"] newEngine)) 0
  = Some (inl SpecifierNotFound).
Proof.
  apply (cache_consistency_error_iff [CallDenoResolve "jsr:@a/b"] 0 "jsr:@a/b"
           (exited 0 (JsonReport {| redirects := []; modules := [] |}))
           (fun _ => inl ReadFailed)).
  - reflexivity.
  - eexists. split; reflexivity.
Defined.

(** ** The in-flight map (C6) *)

(** C6. In every reachable state: at most one resolution is suspended per
    specifier, and the in-flight map holds exactly these (an entry for [s]
    is the promise of the resolution suspended for [s]); a request for a
    specifier that is neither cached nor in flight creates the entry, a
    request for a cached one creates none; when the resolution settles,
    with whatever result of the subprocess, the entry is removed in the
    very step in which its promise settles, so that no state shows a
    settled promise still in flight. *)
Theorem in_flight_map_lifecycle (evs : list Event) :
  let st := run evs newEngine in
  (forall s p q,
      promises st !! p = Some (Pending s) ->
      promises st !! q = Some (Pending s) -> p = q)
  /\ (forall s p,
        resolvePromises st !! s = Some p <-> promises st !! p = Some (Pending s))
  /\ (forall s,
        resolveDenoInfoCache st !! s = None ->
        resolvePromises st !! s = None ->
        resolvePromises (snd (denoResolve s st)) !! s = Some (fst (denoResolve s st))
        /\ promises (snd (denoResolve s st)) !! fst (denoResolve s st)
           = Some (Pending s))
  /\ (forall s,
        is_Some (resolveDenoInfoCache st !! s) ->
        resolvePromises (snd (denoResolve s st)) = resolvePromises st)
  /\ (forall s p r,
        resolvePromises st !! s = Some p ->
        resolvePromises (resume p r st) !! s = None
        /\ await (resume p r st) p = Some (outcome s r (resolveDenoInfoCache st)))
  /\ (forall s p, resolvePromises st !! s = Some p -> await st p = None).
Proof.
  intros st. pose proof (Inv_reachable evs) as HI. fold st in HI.
  split; [|split; [|split; [|split; [|split]]]].
  - intros s p q Hp Hq.
    apply (inv_pending _ HI) in Hp, Hq. congruence.
  - intros s p. split; [apply (inv_inflight _ HI) | apply (inv_pending _ HI)].
  - intros s Hc Hf. rewrite denoResolve_start by done. simpl.
    split; [apply lookup_insert_eq|].
    by rewrite lookup_app_r, Nat.sub_diag by lia.
  - intros s [c Hc]. by rewrite (denoResolve_hit _ _ c).
  - intros s p r Hs. apply (inv_inflight _ HI) in Hs.
    split; [|by apply await_resume].
    rewrite (resume_pending _ s) by done. simpl. apply lookup_delete_eq.
  - intros s p Hs. apply (inv_inflight _ HI) in Hs.
    unfold await. by rewrite Hs.
Qed.

Lemma in_flight_map_witness :
  resolvePromises
    (resume 0 OutputRejected
       (run [CallDenoResolve "jsr:@a/b"; CallDenoResolve "jsr:@a/b"] newEngine))
    !! "jsr:@a/b" = None
  /\ await
       (resume 0 OutputRejected
          (run [CallDenoResolve "jsr:@a/b"; CallDenoResolve "jsr:@a/b"] newEngine))
       0 = Some (inl CommandFailed).
Proof.
  destruct (in_flight_map_lifecycle
              [CallDenoResolve "jsr:@a/b"; CallDenoResolve "jsr:@a/b"])
    as (_ & _ & _ & _ & H & _).
  apply (H "jsr:@a/b" 0 OutputRejected). reflexivity.
Defined.

(** ** Lifetime of cache entries (C7) *)

Lemma step_cache st ev :
  resolveDenoInfoCache (step st ev)
  = match projected ev st with
    | Some info => cacheDenoInfo info (resolveDenoInfoCache st)
    | None => resolveDenoInfoCache st
    end.
Proof.
  destruct ev as [info|s|p r]; simpl; [done|apply denoResolve_cache|].
  unfold resume. destruct (promises st !! p) as [[s| |]|];
    try done; try (by destruct (denoInfo_resume r)).
  rewrite denoResolve_body_eq. simpl. unfold cacheAfter.
  by destruct (denoInfo_resume r).
Qed.

(** A key of the cache is never removed. *)
Lemma run_keeps evs st k :
  is_Some (resolveDenoInfoCache st !! k) ->
  is_Some (resolveDenoInfoCache (run evs st) !! k).
Proof.
  induction evs as [|ev evs IH] using rev_ind; [done|]. intros Hk.
  rewrite run_snoc, step_cache.
  destruct (projected ev (run evs st)); [apply cacheDenoInfo_keeps|]; auto.
Qed.

(** Entries are not write-once: the projection of a later report that
    mentions a cached specifier replaces its entry. *)
Lemma cache_entry_replaced_by_later_projection :
  resolveDenoInfoCache (run trace_b_d newEngine) !! "jsr:@a/b"
  = Some {| localPath := Some "/cache/1/b.ts"; redirected := "jsr:@a/b";
            moduleType := Some Ts |}
  /\ resolveDenoInfoCache
       (step (run trace_b_d newEngine)
             (CommandSettles 1 (exited 0 (JsonReport report_d_b2)))) !! "jsr:@a/b"
     = Some {| localPath := Some "/cache/2/b.js"; redirected := "jsr:@a/b";
               moduleType := Some Js |}.
Proof. vm_compute. split; reflexivity. Qed.

(** C7, amended. A key that has an entry keeps having one through every
    event, so through every run. The entry itself stays as it is through
    every event but the projection of a report that writes this key, which
    replaces it; if the last record of that report writing the key is [d],
    the new entry is the one built from [d]. *)
Theorem cache_entry_lifetime
    (st : Engine) (k : string) (e : DenoResolveResult) :
  resolveDenoInfoCache st !! k = Some e ->
  (forall evs, is_Some (resolveDenoInfoCache (run evs st) !! k))
  /\ (forall ev,
        resolveDenoInfoCache (step st ev) !! k <> Some e ->
        exists info, projected ev st = Some info /\ k ∈ reportKeys info)
  /\ (forall ev info pre d post,
        projected ev st = Some info ->
        modules info = (pre ++ d :: post)%list ->
        k ∈ moduleKeys (redirects info) d ->
        k ∉ flat_map (moduleKeys (redirects info)) post ->
        resolveDenoInfoCache (step st ev) !! k = moduleResult d).
Proof.
  intros Hk. split; [|split].
  - intros evs. apply run_keeps. by rewrite Hk.
  - intros ev Hne. rewrite step_cache in Hne.
    destruct (projected ev st) as [info|]; [|done].
    exists info. split; [done|].
    destruct (decide (k ∈ reportKeys info)) as [Hin|Hin]; [done|].
    by rewrite cacheDenoInfo_lookup_other in Hne.
  - intros ev info pre d post Hev Hm Hd Hpost.
    rewrite step_cache, Hev. destruct info as [rs ms]. simpl in *. subst ms.
    by apply cacheDenoInfo_lookup_last.
Qed.

Lemma cache_entry_lifetime_witness :
  is_Some (resolveDenoInfoCache
             (run [CallDenoResolve "jsr:@c/d"; CommandSettles 0 OutputRejected]
                  (step newEngine (CallCacheDenoInfo report_ab))) !! "jsr:@a/b").
Proof.
  apply (cache_entry_lifetime (step newEngine (CallCacheDenoInfo report_ab))
           "jsr:@a/b" entry_ab).
  vm_compute. reflexivity.
Defined.

(** ** Loading without a local path (C8) *)

(** C8. For an id that [load] handles and whose cache entry has no local
    path, [load] obtains that entry from the cache and fails with the
    missing-artifact error; the engine's cache, in-flight map and
    subprocess log are as before, and a consumer resolving the id
    afterwards is given the same entry. *)
Theorem load_missing_artifact
    (st : Engine) (id : string) (e : DenoResolveResult)
    (readTextFile : string -> Error + string) :
  handledByLoad id = true ->
  resolveDenoInfoCache st !! id = Some e ->
  localPath e = None ->
  let st' := snd (load id st) in
  exists p,
    fst (load id st) = LoadAwait p
    /\ await st' p = Some (inr e)
    /\ load_resume readTextFile (inr e) = inl NoLocalPath
    /\ isMissingArtifactError NoLocalPath = true
    /\ resolveDenoInfoCache st' = resolveDenoInfoCache st
    /\ resolvePromises st' = resolvePromises st
    /\ spawned st' = spawned st
    /\ await (snd (denoResolve id st')) (fst (denoResolve id st')) = Some (inr e).
Proof.
  intros Hh Hc Hl st'. subst st'. unfold load, handledByLoad in *. rewrite Hh.
  rewrite (denoResolve_hit _ _ e) by done. simpl.
  exists (length (promises st)). split; [done|]. split.
  { unfold await; simpl. by rewrite lookup_app_r, Nat.sub_diag by lia. }
  split; [unfold load_resume; by rewrite Hl|].
  repeat (split; [done|]).
  rewrite (denoResolve_hit _ _ e) by done. unfold await; simpl.
  rewrite lookup_app_r; rewrite length_app; simpl; [|lia].
  by replace (length (promises st) + 1 - (length (promises st) + 1)) with 0 by lia.
Qed.

Lemma load_missing_artifact_witness :
  load_resume (fun _ => inl ReadFailed) (inr entry_no_local) = inl NoLocalPath
  /\ resolveDenoInfoCache
       (snd (load "https://esm.sh/x"
               (step newEngine (CallCacheDenoInfo report_no_local))))
     = resolveDenoInfoCache (step newEngine (CallCacheDenoInfo report_no_local)).
Proof.
  destruct (load_missing_artifact
              (step newEngine (CallCacheDenoInfo report_no_local))
              "https://esm.sh/x" entry_no_local (fun _ => inl ReadFailed))
    as (p & _ & _ & H1 & _ & H2 & _).
  - reflexivity.
  - vm_compute. reflexivity.
  - reflexivity.
  - split; [exact H1 | exact H2].
Defined.

(** ** Failures of the discovery (C3) *)

(** A non-zero exit is not a failure by itself: the exit status is never
    read, so a subprocess that exits with status 1 after printing a report
    is a successful discovery, and the resolution that started it returns
    an entry. *)
Lemma nonzero_exit_with_report_succeeds :
  code output_exit1 <> 0%Z
  /\ denoInfo_resume (OutputResolved output_exit1) = inr report_ab
  /\ await (run [CallDenoResolve "jsr:@a/b";
                 CommandSettles 0 (OutputResolved output_exit1)] newEngine) 0
     = Some (inr entry_ab).
Proof. split; [done|]. vm_compute. split; reflexivity. Qed.

(** C3, amended. The discovery fails exactly when the subprocess cannot be
    run to an output or its standard output is not JSON, and the failure
    is then a discovery error; the exit status plays no part. The failure
    rejects the promise of the resolution that waits for the subprocess,
    and the [load] or [resolveId] hook awaiting that promise rethrows it. *)
Theorem discovery_error_surfaces
    (r : CommandSettled) (readTextFile : string -> Error + string) :
  ((exists e, denoInfo_resume r = inl e)
   <-> (r = OutputRejected
        \/ exists o t, r = OutputResolved o /\ stdout o = NotJson t))
  /\ (forall e,
        denoInfo_resume r = inl e ->
        isDiscoveryError e = true
        /\ (forall st p s,
              promises st !! p = Some (Pending s) ->
              await (resume p r st) p = Some (inl e))
        /\ load_resume readTextFile (inl e) = inl e
        /\ resolveId_resume (inl e) = inl e)
  /\ (forall o c,
        denoInfo_resume
          (OutputResolved {| code := c; stdout := stdout o; stderr := stderr o |})
        = denoInfo_resume (OutputResolved o)).
Proof.
  split; [|split].
  - split.
    + intros [e He]. destruct r as [|o]; [by left|]. right.
      simpl in He. destruct (stdout o) as [t|info] eqn:E; [by exists o, t|done].
    + intros [->|(o & t & -> & Ho)]; [by exists CommandFailed|].
      exists SyntaxError. simpl. by rewrite Ho.
  - intros e He. split; [|split; [|done]].
    + destruct r as [|o]; simpl in He; [by injection He as <-|].
      destruct (stdout o); [by injection He as <-|done].
    + intros st p s Hp. rewrite (await_resume _ _ s) by done.
      unfold outcome. by rewrite He.
  - done.
Qed.

Lemma discovery_error_witness :
  await (resume 0 (exited 2 (NotJson "error: Import not found"))
           (run [CallDenoResolve "jsr:@a/b"] newEngine)) 0
  = Some (inl SyntaxError).
Proof.
  destruct (discovery_error_surfaces
              (exited 2 (NotJson "error: Import not found"))
              (fun _ => inl ReadFailed)) as (_ & H & _).
  destruct (H SyntaxError eq_refl) as (_ & Hs & _).
  apply (Hs (run [CallDenoResolve "jsr:@a/b"] newEngine) 0 "jsr:@a/b").
  reflexivity.
Defined.

(** ** Redirect aliases (C4) *)

Lemma redirectKeys_In spec rs a :
  In (a, spec) rs -> cacheKey a ∈ redirectKeys spec rs.
Proof.
  intros H. unfold redirectKeys. apply list_elem_of_In, in_map_iff.
  exists (a, spec). split; [done|]. apply filter_In. split; [done|].
  simpl. apply String.eqb_refl.
Qed.

Lemma step_spawned st ev info :
  projected ev st = Some info -> spawned (step st ev) = spawned st.
Proof.
  destruct ev as [i|s|p r]; simpl; [done|done|].
  unfold resume. destruct (promises st !! p) as [[s| |]|]; try done.
  by rewrite denoResolve_body_eq.
Qed.

(** A redirect source that carries the file scheme is not reachable under
    its own name: the alias is stored under the stripped key, so resolving
    the source itself misses the cache and starts a discovery. *)
Lemma redirect_from_file_url_misses :
  resolveDenoInfoCache
    (step newEngine (CallCacheDenoInfo report_file_redirect)) !! "file:///src/a.js"
  = None
  /\ spawned (snd (denoResolve "file:///src/a.js"
                     (step newEngine (CallCacheDenoInfo report_file_redirect))))
     = ["file:///src/a.js"]
  /\ await (snd (denoResolve "file:///src/a.js"
                   (step newEngine (CallCacheDenoInfo report_file_redirect))))
           (fst (denoResolve "file:///src/a.js"
                   (step newEngine (CallCacheDenoInfo report_file_redirect))))
     = None.
Proof. vm_compute. repeat split; reflexivity. Qed.

(** C4, amended. Let a report hold a record [d] with specifier [B], a
    media type, local path [P] and no [npm_package] key, and a redirect
    from [A] to [B], where [A] does not contain the file scheme and no
    record after [d] is stored under [A]. Once an event has projected the
    report, resolving [A] returns the entry built from [d] and starts no
    subprocess. *)
Theorem redirect_alias_resolves_from_cache
    (st : Engine) (ev : Event) (rs : list (string * string))
    (pre post : list ModuleInfo) (d : ModuleInfo) (A B P mt : string) :
  specifier d = Some B ->
  mediaType d = Some mt ->
  local d = Some P ->
  npm_package d = None ->
  In (A, B) rs ->
  includes A "file://" = false ->
  A ∉ flat_map (moduleKeys rs) post ->
  projected ev st = Some {| redirects := rs; modules := pre ++ d :: post |} ->
  let st1 := step st ev in
  let p := fst (denoResolve A st1) in
  let st2 := snd (denoResolve A st1) in
  await st2 p = Some (inr {| localPath := Some P; redirected := B;
                             moduleType := Some (mapMediaType mt) |})
  /\ spawned st2 = spawned st.
Proof.
  intros Hs Hm Hl Hn Hin HA Hpost Hev st1 p st2.
  assert (resolveDenoInfoCache st1 !! A
          = Some {| localPath := Some P; redirected := B;
                    moduleType := Some (mapMediaType mt) |}) as Hc.
  { subst st1. rewrite step_cache, Hev.
    rewrite (cacheDenoInfo_lookup_last rs pre d post _ A); [| |done].
    - unfold moduleResult. by rewrite Hs, Hn, Hm, Hl.
    - unfold moduleKeys. rewrite Hs, Hn, Hm.
      apply elem_of_cons. right. rewrite <- (cacheKey_id A) by done.
      by apply redirectKeys_In. }
  subst p st2. rewrite (denoResolve_hit _ _ _ Hc). simpl. split.
  - unfold await; simpl. by rewrite lookup_app_r, Nat.sub_diag by lia.
  - subst st1. by eapply step_spawned.
Qed.

Lemma redirect_alias_witness :
  await (snd (denoResolve "jsr:@a/b"
                (step newEngine (CallCacheDenoInfo report_redirect))))
        (fst (denoResolve "jsr:@a/b"
                (step newEngine (CallCacheDenoInfo report_redirect))))
  = Some (inr {| localPath := Some "/tmp/b.js";
                 redirected := "https://jsr.io/@a/b/1.0.0/b.js";
                 moduleType := Some (mapMediaType "JavaScript") |})
  /\ spawned (snd (denoResolve "jsr:@a/b"
                     (step newEngine (CallCacheDenoInfo report_redirect))))
     = spawned newEngine.
Proof.
  apply (redirect_alias_resolves_from_cache newEngine
           (CallCacheDenoInfo report_redirect)
           [("jsr:@a/b", "https://jsr.io/@a/b/1.0.0/b.js")] [] []
           (esm "https://jsr.io/@a/b/1.0.0/b.js" (Some "/tmp/b.js") "JavaScript")
           "jsr:@a/b" "https://jsr.io/@a/b/1.0.0/b.js" "/tmp/b.js" "JavaScript");
    try reflexivity.
  - simpl. left. reflexivity.
  - simpl. apply not_elem_of_nil.
Defined.

(** ** Specifiers with the file scheme (C10) *)

(** A specifier with the file scheme is not always rejected: a report can
    hold a record that is stored under the unstripped specifier, and then
    the re-read finds it. *)
Lemma file_url_found_through_other_record :
  startsWith "file:///src/a.ts" "file://" = true
  /\ resolveDenoInfoCache newEngine !! "file:///src/a.ts" = None
  /\ await (run [CallDenoResolve "file:///src/a.ts";
                 CommandSettles 0 (exited 0 (JsonReport report_double_scheme))]
                newEngine) 0
     = Some (inr {| localPath := Some "/src/a.ts";
                    redirected := "file://file:///src/a.ts";
                    moduleType := Some Ts |}).
Proof. vm_compute. repeat split; reflexivity. Qed.

(** C10, amended. Let the resolution of a specifier [S] that starts with
    the file scheme and has no cache entry be suspended, and let its
    discovery deliver a report none of whose records or redirects is stored
    under [S] itself. Then the resolution is rejected with the
    cache-consistency error, also when the report has a record for [S]:
    that record is stored under the stripped key, which is not [S], and the
    re-read looks [S] up. *)
Theorem file_url_specifier_rejected
    (st : Engine) (p : nat) (S : string) (r : CommandSettled)
    (info : DenoInfoJsonV1) :
  startsWith S "file://" = true ->
  promises st !! p = Some (Pending S) ->
  resolveDenoInfoCache st !! S = None ->
  denoInfo_resume r = inr info ->
  S ∉ reportKeys info ->
  let st' := resume p r st in
  await st' p = Some (inl SpecifierNotFound)
  /\ cacheKey S <> S
  /\ (forall d, d ∈ modules info -> specifier d = Some S ->
        is_Some (moduleResult d) ->
        is_Some (resolveDenoInfoCache st' !! cacheKey S)
        /\ resolveDenoInfoCache st' !! S = None).
Proof.
  intros Hf Hp Hc Hr Hk st'. subst st'.
  assert (cacheDenoInfo info (resolveDenoInfoCache st) !! S = None) as Hmiss
    by (by rewrite cacheDenoInfo_lookup_other).
  split; [|split; [by apply cacheKey_file|]].
  - rewrite (await_resume _ _ S) by done. unfold outcome. by rewrite Hr, Hmiss.
  - intros d Hd Hs Hres. rewrite (resume_pending _ S) by done. simpl.
    unfold cacheAfter. rewrite Hr. split; [|done].
    apply cacheDenoInfo_lookup_written. unfold reportKeys.
    apply list_elem_of_In, in_flat_map. exists d.
    split; [by apply list_elem_of_In|].
    unfold moduleKeys. unfold moduleResult in Hres. rewrite Hs in *.
    destruct (npm_package d); [by destruct Hres|].
    destruct (mediaType d); [by left | by destruct Hres].
Qed.

Lemma file_url_specifier_witness :
  await (resume 0 (exited 0 (JsonReport report_file_a))
           (run [CallDenoResolve "file:///src/a.ts"] newEngine)) 0
  = Some (inl SpecifierNotFound).
Proof.
  apply (file_url_specifier_rejected
           (run [CallDenoResolve "file:///src/a.ts"] newEngine) 0 "file:///src/a.ts"
           (exited 0 (JsonReport report_file_a)) report_file_a);
    try reflexivity.
  intros H. apply list_elem_of_In in H. simpl in H.
  destruct H as [H|[]]. discriminate H.
Defined.

(** ** The package-path extractor (C9) *)

(** C9. The two examples of the design document, and the strings without
    a package shape: on a string made only of slashes and at-signs (the
    empty string is one) the expression finds no match and both results
    are [null]; on every other string a package name is found. *)
Theorem extractPackageAndPath_spec :
  extractPackageAndPath "npm:@scope/pkg@1.2.3/sub/path"
  = (Some "@scope/pkg", Some "sub/path")
  /\ extractPackageAndPath "npm:lodash" = (Some "lodash", None)
  /\ (forall s, noPackageShape s = true -> extractPackageAndPath s = (None, None))
  /\ (forall s, noPackageShape s = false ->
        exists pkg, fst (extractPackageAndPath s) = Some pkg /\ pkg <> "").
Proof.
  split; [by vm_compute|]. split; [by vm_compute|]. split.
  - intros s Hs. by apply extractPackageAndPath_null.
  - intros s Hs. unfold extractPackageAndPath.
    destruct (RegexFacts.exec_shape s Hs) as [m Hm]. rewrite Hm.
    apply RegexFacts.exec_In in Hm as (s' & Hin).
    apply RegexFacts.regex_group1 in Hin as (g & Hg & Hne).
    exists g. simpl. rewrite Hg. by destruct g.
Qed.

Lemma extractPackageAndPath_witness :
  extractPackageAndPath "@/" = (None, None).
Proof.
  destruct extractPackageAndPath_spec as (_ & _ & H & _).
  apply (H "@/"). reflexivity.
Defined.

(** * Further properties of the code *)

(** ** Keys *)

Lemma string_drop_replace_length s :
  includes s "file://" = true ->
  String.length (cacheKey s) + 7 = String.length s.
Proof.
  unfold cacheKey. induction s as [|c s IH].
  - simpl. done.
  - unfold includes; fold includes. unfold replace; fold replace.
    destruct (String.prefix "file://" (String c s)) eqn:Hp.
    + intros _. apply prefix_length in Hp.
      change ("" ++ ?x) with x. rewrite string_drop_length. simpl in *. lia.
    + simpl orb. intros H. apply IH in H. simpl. lia.
Qed.

(** X1. A specifier is its own cache key exactly when it does not contain
    the file scheme anywhere; otherwise its key is seven characters shorter
    (one occurrence removed). *)
Theorem cacheKey_own_name_iff (s : string) :
  (cacheKey s = s <-> includes s "file://" = false)
  /\ (includes s "file://" = true ->
      String.length (cacheKey s) + 7 = String.length s).
Proof.
  split; [|apply string_drop_replace_length].
  split; [|apply cacheKey_id].
  intros E. destruct (includes s "file://") eqn:Hi; [|done].
  apply string_drop_replace_length in Hi. rewrite E in Hi. lia.
Qed.

Lemma cacheKey_own_name_witness :
  String.length (cacheKey "/vendor/file://x") + 7 = String.length "/vendor/file://x".
Proof.
  apply (cacheKey_own_name_iff "/vendor/file://x"). reflexivity.
Defined.

(** ** Projections *)

Lemma projectedEntry_snoc rs ms d k :
  projectedEntry rs (ms ++ [d]) k
  = if decide (k ∈ moduleKeys rs d) then moduleResult d
    else projectedEntry rs ms k.
Proof. unfold projectedEntry. by rewrite foldl_snoc. Qed.

Lemma cacheDenoInfo_lookup rs ms cache k :
  cacheDenoInfo {| redirects := rs; modules := ms |} cache !! k
  = match projectedEntry rs ms k with
    | Some e => Some e
    | None => cache !! k
    end.
Proof.
  induction ms as [|d ms IH] using rev_ind; [done|].
  rewrite cacheDenoInfo_snoc, cacheModule_lookup, projectedEntry_snoc.
  destruct (decide (k ∈ moduleKeys rs d)) as [Hin|Hin]; [|done].
  by destruct (moduleKeys_result rs d k Hin) as [e ->].
Qed.

Lemma projectedEntry_written rs ms k :
  is_Some (projectedEntry rs ms k) <-> k ∈ flat_map (moduleKeys rs) ms.
Proof.
  induction ms as [|d ms IH] using rev_ind.
  - simpl. split; [by intros [? ?]|]. intros H. by apply elem_of_nil in H.
  - rewrite projectedEntry_snoc, flat_map_app. simpl. rewrite app_nil_r.
    rewrite elem_of_app.
    destruct (decide (k ∈ moduleKeys rs d)) as [Hin|Hin].
    + split; [by right|]. intros _. by eapply moduleKeys_result.
    + rewrite IH. tauto.
Qed.

(** X2. What a projection does to the cache, key by key: a key the report
    writes holds afterwards the entry built from the last record writing
    it, whatever was there; every other key holds what it held. The keys
    present afterwards are those present before and those written. *)
Theorem cacheDenoInfo_spec
    (info : DenoInfoJsonV1) (cache : gmap string DenoResolveResult) (k : string) :
  (k ∈ reportKeys info ->
   cacheDenoInfo info cache !! k = projectedEntry (redirects info) (modules info) k
   /\ is_Some (projectedEntry (redirects info) (modules info) k))
  /\ (k ∉ reportKeys info -> cacheDenoInfo info cache !! k = cache !! k)
  /\ (is_Some (cacheDenoInfo info cache !! k)
      <-> is_Some (cache !! k) \/ k ∈ reportKeys info).
Proof.
  destruct info as [rs ms]. unfold reportKeys. simpl.
  pose proof (projectedEntry_written rs ms k) as Hw.
  rewrite cacheDenoInfo_lookup.
  destruct (projectedEntry rs ms k) as [e|] eqn:E.
  - assert (k ∈ flat_map (moduleKeys rs) ms) as Hin by (apply Hw; eauto).
    split; [eauto|]. split; [done|]. split; eauto.
  - assert (k ∉ flat_map (moduleKeys rs) ms) as Hin.
    { intros H. apply Hw in H. by destruct H. }
    split; [done|]. split; [done|]. split; [by left|]. by intros [?|?].
Qed.

Lemma cacheDenoInfo_spec_witness :
  cacheDenoInfo report_d_b2 ∅ !! "jsr:@a/b"
  = projectedEntry (redirects report_d_b2) (modules report_d_b2) "jsr:@a/b"
  /\ is_Some (projectedEntry (redirects report_d_b2) (modules report_d_b2) "jsr:@a/b").
Proof.
  apply (cacheDenoInfo_spec report_d_b2 ∅ "jsr:@a/b").
  apply list_elem_of_In. simpl. right. left. reflexivity.
Defined.

(** X3. Projecting a report a second time changes nothing: the projection
    is idempotent, so seeding again with the same report, or a discovery
    that reports what is already projected, leaves the cache as it is. *)
Theorem cacheDenoInfo_idempotent
    (info : DenoInfoJsonV1) (cache : gmap string DenoResolveResult) :
  cacheDenoInfo info (cacheDenoInfo info cache) = cacheDenoInfo info cache.
Proof.
  destruct info as [rs ms]. apply map_eq. intros k.
  rewrite (cacheDenoInfo_lookup rs ms (cacheDenoInfo _ cache)).
  rewrite cacheDenoInfo_lookup.
  by destruct (projectedEntry rs ms k).
Qed.

Lemma cacheDenoInfo_swap_lookup info1 info2 cache k :
  (forall k, k ∈ reportKeys info1 -> k ∈ reportKeys info2 ->
     projectedEntry (redirects info1) (modules info1) k
     = projectedEntry (redirects info2) (modules info2) k) ->
  cacheDenoInfo info1 (cacheDenoInfo info2 cache) !! k
  = cacheDenoInfo info2 (cacheDenoInfo info1 cache) !! k.
Proof.
  intros Hd. destruct info1 as [rs1 ms1], info2 as [rs2 ms2].
  rewrite !cacheDenoInfo_lookup.
  pose proof (projectedEntry_written rs1 ms1 k) as H1.
  pose proof (projectedEntry_written rs2 ms2 k) as H2.
  specialize (Hd k). unfold reportKeys in Hd. simpl in Hd.
  destruct (projectedEntry rs1 ms1 k) as [e1|] eqn:E1,
           (projectedEntry rs2 ms2 k) as [e2|] eqn:E2; try done.
  rewrite Hd; [done | apply H1 | apply H2]; eauto.
Qed.

(** X4. Two reports that agree on the keys they both write (as the
    reports of a consistent discovery service do, and as reports with
    disjoint keys trivially do) can be projected in either order: the
    cache does not depend on which discovery settles first. *)
Theorem cacheDenoInfo_commute
    (info1 info2 : DenoInfoJsonV1) (cache : gmap string DenoResolveResult) :
  (forall k, k ∈ reportKeys info1 -> k ∈ reportKeys info2 ->
     projectedEntry (redirects info1) (modules info1) k
     = projectedEntry (redirects info2) (modules info2) k) ->
  cacheDenoInfo info1 (cacheDenoInfo info2 cache)
  = cacheDenoInfo info2 (cacheDenoInfo info1 cache).
Proof.
  intros Hagree. apply map_eq. intros k.
  by apply cacheDenoInfo_swap_lookup.
Qed.

Lemma cacheDenoInfo_commute_witness :
  cacheDenoInfo report_ab (cacheDenoInfo report_no_local ∅)
  = cacheDenoInfo report_no_local (cacheDenoInfo report_ab ∅).
Proof.
  apply (cacheDenoInfo_commute report_ab report_no_local ∅).
  intros k H1 H2. exfalso.
  apply list_elem_of_In in H1, H2. vm_compute in H2.
  destruct H2 as [<-|[]]. vm_compute in H1.
  destruct H1 as [H1|[H1|[]]]; discriminate H1.
Defined.

(** ** After a failed resolution *)

(** X5. A resolution that fails is not remembered. When the discovery
    awaited for [s] ends in an error, the promise is rejected with it and
    [s] is no longer in flight. A failure of the discovery itself leaves
    the cache as it was; a cache-consistency failure leaves the whole
    report projected (its other specifiers are cached) and [s] uncached.
    Whenever [s] is still uncached afterwards, the next request for [s]
    starts a new subprocess and waits on a new promise. *)
Theorem failed_resolution_is_retried
    (evs : list Event) (p : nat) (s : string) (r : CommandSettled) (e : Error) :
  let st := run evs newEngine in
  promises st !! p = Some (Pending s) ->
  outcome s r (resolveDenoInfoCache st) = inl e ->
  let st' := resume p r st in
  await st' p = Some (inl e)
  /\ resolvePromises st' !! s = None
  /\ (isDiscoveryError e = true ->
      resolveDenoInfoCache st' = resolveDenoInfoCache st)
  /\ (isDiscoveryError e = false ->
      e = SpecifierNotFound
      /\ resolveDenoInfoCache st' !! s = None
      /\ exists info, denoInfo_resume r = inr info
           /\ resolveDenoInfoCache st'
              = cacheDenoInfo info (resolveDenoInfoCache st))
  /\ (resolveDenoInfoCache st' !! s = None ->
      spawned (snd (denoResolve s st')) = (spawned st ++ [s])%list
      /\ fst (denoResolve s st') <> p
      /\ promises (snd (denoResolve s st')) !! fst (denoResolve s st')
         = Some (Pending s)).
Proof.
  intros st Hp Ho st'. subst st'.
  rewrite (await_resume _ _ s), Ho by done.
  rewrite (resume_pending _ s) by done. simpl.
  split; [done|]. split; [apply lookup_delete_eq|].
  unfold outcome in Ho. unfold cacheAfter.
  destruct (denoInfo_resume r) as [e'|info] eqn:Er.
  - injection Ho as ->.
    assert (isDiscoveryError e = true) as Hd.
    { destruct r as [|o]; simpl in Er; [by injection Er as <-|].
      destruct (stdout o); [by injection Er as <-|done]. }
    split; [done|]. split; [by rewrite Hd|].
    intros Hc. rewrite denoResolve_start; simpl;
      [|done|apply lookup_delete_eq].
    rewrite length_insert. split; [done|]. split.
    + apply lookup_lt_Some in Hp. lia.
    + by rewrite lookup_app_r, length_insert, Nat.sub_diag
        by (rewrite length_insert; lia).
  - destruct (cacheDenoInfo info (resolveDenoInfoCache st) !! s) eqn:Ec; [done|].
    injection Ho as <-. split; [done|]. split; [eauto|].
    intros Hc. rewrite denoResolve_start; simpl;
      [|done|apply lookup_delete_eq].
    rewrite length_insert. split; [done|]. split.
    + apply lookup_lt_Some in Hp. lia.
    + by rewrite lookup_app_r, length_insert, Nat.sub_diag
        by (rewrite length_insert; lia).
Qed.

Lemma failed_resolution_witness :
  spawned (snd (denoResolve "jsr:@a/b"
                  (resume 0 OutputRejected
                     (run [CallDenoResolve "jsr:@a/b"] newEngine))))
  = ["jsr:@a/b"; "jsr:@a/b"].
Proof.
  destruct (failed_resolution_is_retried [CallDenoResolve "jsr:@a/b"] 0 "jsr:@a/b"
              OutputRejected CommandFailed) as (_ & _ & _ & _ & H).
  - reflexivity.
  - reflexivity.
  - apply H. reflexivity.
Defined.

(** ** Media types *)

Lemma mapMediaType_tagsOf kind mt : In mt (tagsOf kind) -> mapMediaType mt = kind.
Proof.
  destruct kind; simpl; intros H;
    repeat (destruct H as [<-|H]; [reflexivity|]); destruct H.
Qed.

Lemma mapMediaType_Json mt : mapMediaType mt = Json -> mt = DenoMediaType.Json.
Proof.
  unfold mapMediaType.
  repeat match goal with
         | |- context [String.eqb mt ?t] =>
             destruct (String.eqb_spec mt t) as [->|?]; [by vm_compute|]
         end.
  done.
Qed.

(** X6. The kind of a media-type tag: a tag has a kind other than [empty]
    exactly when it is one of the tags listed for that kind, compared
    exactly (case matters), and every other string, the tag [Unknown]
    among them, has the kind [empty]. *)
Theorem mapMediaType_preimage (mt : string) (kind : ModuleType) :
  (kind <> Empty -> (mapMediaType mt = kind <-> In mt (tagsOf kind)))
  /\ (mapMediaType mt = Empty <-> forall k, ~ In mt (tagsOf k)).
Proof.
  assert (forall k, In mt (tagsOf k) -> mapMediaType mt = k) as Hin
    by (intros k; apply mapMediaType_tagsOf).
  assert (mapMediaType mt <> Empty -> In mt (tagsOf (mapMediaType mt))) as Hout.
  { unfold mapMediaType.
    repeat match goal with
           | |- context [String.eqb mt ?t] =>
               destruct (String.eqb_spec mt t) as [->|?];
               [vm_compute; intros _; tauto|]
           end.
    simpl. done. }
  split.
  - intros Hk. split; [|apply Hin]. intros <-. by apply Hout.
  - split.
    + intros He k Hk. pose proof (Hin _ Hk) as E. rewrite He in E. subst k.
      destruct Hk.
    + intros Hn. destruct (decide (mapMediaType mt = Empty)) as [|Hne]; [done|].
      destruct (Hn _ (Hout Hne)).
Qed.

Lemma mapMediaType_preimage_witness :
  mapMediaType "Dmts" = Ts <-> In "Dmts" (tagsOf Ts).
Proof.
  apply (mapMediaType_preimage "Dmts" Ts). discriminate.
Defined.

(** ** The cache in reachable states *)

Lemma projectedEntry_typed rs ms k e :
  projectedEntry rs ms k = Some e -> is_Some (moduleType e).
Proof.
  induction ms as [|d ms IH] using rev_ind; [done|].
  rewrite projectedEntry_snoc.
  destruct (decide (k ∈ moduleKeys rs d)); [|done].
  unfold moduleResult.
  destruct (specifier d), (npm_package d), (mediaType d); try done.
  intros [= <-]. simpl. eauto.
Qed.

Lemma cacheDenoInfo_typed info cache :
  typedCache cache -> typedCache (cacheDenoInfo info cache).
Proof.
  intros H k e. destruct info as [rs ms]. rewrite cacheDenoInfo_lookup.
  destruct (projectedEntry rs ms k) as [e'|] eqn:E; [|apply H].
  intros [= <-]. by eapply projectedEntry_typed.
Qed.

Lemma typedCache_reachable evs :
  typedCache (resolveDenoInfoCache (run evs newEngine)).
Proof.
  induction evs as [|ev evs IH] using rev_ind.
  - intros k e. simpl. by rewrite lookup_empty.
  - rewrite run_snoc, step_cache.
    destruct (projected ev (run evs newEngine)); [|done].
    by apply cacheDenoInfo_typed.
Qed.

(** ** Loading *)

(** X7. What [load] makes of a resolved entry. It fails with the
    missing-artifact error when the local path is missing or empty, and
    then does not read any file; otherwise it reads the file at the local
    path, fails as the read fails, and else returns the content: behind
    [export default] and as kind [js] when the entry's kind is [json],
    unchanged and with the entry's kind otherwise. The kind returned is
    never [json]. *)
Theorem load_resume_spec
    (readTextFile : string -> Error + string) (cached : DenoResolveResult) :
  (localPath cached = None \/ localPath cached = Some "" ->
   forall other, load_resume other (inr cached) = inl NoLocalPath)
  /\ (forall path,
        localPath cached = Some path -> path <> "" ->
        (forall e, readTextFile path = inl e ->
           load_resume readTextFile (inr cached) = inl e)
        /\ (forall content,
              readTextFile path = inr content ->
              (moduleType cached = Some Json ->
               load_resume readTextFile (inr cached)
               = inr {| load_code := "export default " ++ content;
                        load_moduleType := Some Js |})
              /\ (moduleType cached <> Some Json ->
                  load_resume readTextFile (inr cached)
                  = inr {| load_code := content;
                           load_moduleType := moduleType cached |})))
  /\ (forall res,
        load_resume readTextFile (inr cached) = inr res ->
        load_moduleType res <> Some Json).
Proof.
  split; [|split].
  - intros [H|H] other; unfold load_resume; by rewrite H.
  - intros path Hp Hne. unfold load_resume. rewrite Hp.
    destruct path as [|c path]; [done|].
    split.
    + intros e ->. done.
    + intros content ->. split; intros Hj.
      * by rewrite !decide_True.
      * by rewrite !decide_False.
  - intros res. unfold load_resume.
    destruct (localPath cached) as [[|c path]|]; try done.
    destruct (readTextFile (String c path)); [done|].
    intros [= <-]. simpl.
    destruct (decide (moduleType cached = Some Json)); done.
Qed.

Lemma load_resume_witness :
  load_resume (fun _ => inr "{}")
    (inr {| localPath := Some "/tmp/d.json"; redirected := "jsr:@a/d.json";
            moduleType := Some Json |})
  = inr {| load_code := "export default {}"; load_moduleType := Some Js |}.
Proof.
  destruct (load_resume_spec (fun _ => inr "{}")
              {| localPath := Some "/tmp/d.json"; redirected := "jsr:@a/d.json";
                 moduleType := Some Json |}) as (_ & H & _).
  destruct (H "/tmp/d.json" eq_refl) as (_ & H'); [discriminate|].
  apply (H' "{}" eq_refl). reflexivity.
Defined.

(** X8. From a record to the loaded module. In a reachable state, let an
    event project a report whose last record writing the key [id] is [d],
    with media type [mt] and a non-empty local path, and let the file be
    readable. Then [load id], for an id that [load] handles, is answered
    from the cache and returns the content of the file; it wraps it as a
    default export, with kind [js], exactly when [mt] is the tag [Json],
    and otherwise reports the kind [mapMediaType mt]. *)
Theorem load_projected_record
    (st : Engine) (ev : Event) (info : DenoInfoJsonV1)
    (pre post : list ModuleInfo) (d : ModuleInfo)
    (id spec mt path content : string)
    (readTextFile : string -> Error + string) :
  handledByLoad id = true ->
  projected ev st = Some info ->
  modules info = (pre ++ d :: post)%list ->
  specifier d = Some spec -> npm_package d = None -> mediaType d = Some mt ->
  local d = Some path -> path <> "" ->
  id ∈ moduleKeys (redirects info) d ->
  id ∉ flat_map (moduleKeys (redirects info)) post ->
  readTextFile path = inr content ->
  let st1 := step st ev in
  exists p cached,
    fst (load id st1) = LoadAwait p
    /\ await (snd (load id st1)) p = Some (inr cached)
    /\ spawned (snd (load id st1)) = spawned st
    /\ load_resume readTextFile (inr cached)
       = inr (if decide (mt = DenoMediaType.Json)
              then {| load_code := "export default " ++ content;
                      load_moduleType := Some Js |}
              else {| load_code := content;
                      load_moduleType := Some (mapMediaType mt) |}).
Proof.
  intros Hh Hev Hm Hs Hn Hmt Hl Hne Hin Hpost Hr st1.
  set (cached := {| localPath := Some path; redirected := spec;
                    moduleType := Some (mapMediaType mt) |}).
  assert (resolveDenoInfoCache st1 !! id = Some cached) as Hc.
  { subst st1. rewrite step_cache, Hev. destruct info as [rs ms].
    simpl in *. subst ms. rewrite cacheDenoInfo_lookup_last by done.
    unfold moduleResult. by rewrite Hs, Hn, Hmt, Hl. }
  exists (length (promises st1)), cached.
  unfold load. unfold handledByLoad in Hh. rewrite Hh.
  rewrite (denoResolve_hit _ _ cached) by done. simpl.
  split; [done|]. split.
  { unfold await; simpl. by rewrite lookup_app_r, Nat.sub_diag by lia. }
  split; [subst st1; by eapply step_spawned|].
  unfold load_resume. simpl. destruct path as [|c path]; [done|]. rewrite Hr.
  destruct (decide (mt = DenoMediaType.Json)) as [->|Hd].
  - by rewrite !decide_True.
  - rewrite !decide_False; [done|..]; intros [= E];
      by apply mapMediaType_Json in E.
Qed.

Lemma load_projected_record_witness :
  exists p cached,
    fst (load "https://esm.sh/d.json"
           (step newEngine
              (CallCacheDenoInfo
                 {| redirects := [];
                    modules := [esm "https://esm.sh/d.json" (Some "/tmp/d.json") "Json"] |})))
    = LoadAwait p
    /\ load_resume (fun _ => inr "[1]") (inr cached)
       = inr {| load_code := "export default [1]"; load_moduleType := Some Js |}.
Proof.
  destruct (load_projected_record newEngine
              (CallCacheDenoInfo
                 {| redirects := [];
                    modules := [esm "https://esm.sh/d.json" (Some "/tmp/d.json") "Json"] |})
              {| redirects := [];
                 modules := [esm "https://esm.sh/d.json" (Some "/tmp/d.json") "Json"] |}
              [] [] (esm "https://esm.sh/d.json" (Some "/tmp/d.json") "Json")
              "https://esm.sh/d.json" "https://esm.sh/d.json" "Json" "/tmp/d.json" "[1]"
              (fun _ => inr "[1]"))
    as (p & cached & H1 & _ & _ & H2); try reflexivity.
  - discriminate.
  - apply list_elem_of_In. left. reflexivity.
  - apply not_elem_of_nil.
  - exists p, cached. split; [exact H1 | exact H2].
Defined.

Lemma typedEngine_step st ev : typedEngine st -> typedEngine (step st ev).
Proof.
  intros [Hc Hp]. split.
  - rewrite step_cache. destruct (projected ev st); [|done].
    by apply cacheDenoInfo_typed.
  - destruct ev as [info|s|q r]; simpl; [done| |].
    + unfold denoResolve.
      destruct (resolveDenoInfoCache st !! s) as [c|] eqn:Ec; simpl.
      * intros p v H. apply lookup_app_Some in H as [H|[_ H]]; [by eapply Hp|].
        destruct (p - length (promises st)) as [|n]; simpl in H;
          [|by rewrite lookup_nil in H].
        injection H as <-. by eapply Hc.
      * destruct (resolvePromises st !! s); simpl; [done|].
        intros p v H. apply lookup_app_Some in H as [H|[_ H]]; [by eapply Hp|].
        destruct (p - length (promises st)) as [|n]; simpl in H;
          [done | by rewrite lookup_nil in H].
    + unfold resume.
      destruct (promises st !! q) as [[s| |]|] eqn:Eq; try done.
      rewrite denoResolve_body_eq. simpl. intros p v H.
      destruct (decide (q = p)) as [->|Hne].
      * rewrite list_lookup_insert_eq in H by (by eapply lookup_lt_Some).
        unfold outcome in H. destruct (denoInfo_resume r) as [e|info]; [done|].
        destruct (cacheDenoInfo info (resolveDenoInfoCache st) !! s) as [c|] eqn:Ec;
          [|done].
        injection H as <-. by eapply (cacheDenoInfo_typed info).
      * rewrite list_lookup_insert_ne in H by done. by eapply Hp.
Qed.

Lemma typedEngine_reachable evs : typedEngine (run evs newEngine).
Proof.
  induction evs as [|ev evs IH] using rev_ind.
  - split; [intros k e; simpl; by rewrite lookup_empty|].
    intros p v. simpl. by rewrite lookup_nil.
  - rewrite run_snoc. by apply typedEngine_step.
Qed.

(** X9. In every reachable state, whatever entry a resolution returns,
    from the cache or from a promise, has its module type set; so a [load]
    that succeeds on it reports a module type, and one other than [json]. *)
Theorem resolved_entries_are_typed
    (evs : list Event) (readTextFile : string -> Error + string) :
  let st := run evs newEngine in
  (forall k e, resolveDenoInfoCache st !! k = Some e -> is_Some (moduleType e))
  /\ (forall p v, await st p = Some (inr v) -> is_Some (moduleType v))
  /\ (forall p v res,
        await st p = Some (inr v) ->
        load_resume readTextFile (inr v) = inr res ->
        exists kind, load_moduleType res = Some kind /\ kind <> Json).
Proof.
  intros st. destruct (typedEngine_reachable evs) as [Hc Hp]. fold st in Hc, Hp.
  assert (forall p v, await st p = Some (inr v) -> is_Some (moduleType v)) as Ha.
  { intros p v. unfold await.
    destruct (promises st !! p) as [[s|v'|e]|] eqn:E; try done.
    intros [= <-]. by eapply Hp. }
  split; [exact Hc|]. split; [exact Ha|].
  intros p v res Hv Hl. apply Ha in Hv as [t Ht].
  unfold load_resume in Hl.
  destruct (localPath v) as [[|c path]|]; try done.
  destruct (readTextFile (String c path)); [done|].
  injection Hl as <-. simpl.
  destruct (decide (moduleType v = Some Json)) as [|Hne]; [by exists Js|].
  exists t. split; [done|]. intros ->. done.
Qed.

Lemma resolved_entries_witness :
  is_Some (moduleType entry_ab).
Proof.
  destruct (resolved_entries_are_typed
              [CallCacheDenoInfo report_ab] (fun _ => inl ReadFailed)) as (H & _).
  apply (H "jsr:@a/b" entry_ab). vm_compute. reflexivity.
Defined.



(** ** The first match of the package-path expression *)

Module FirstMatch.
Import Regex.

#[local] Arguments Ascii.eqb : simpl never.

Lemma firstMatch_seq m1 m2 st a b :
  firstMatch m1 st a -> firstMatch m2 a b -> firstMatch (seq m1 m2) st b.
Proof.
  intros [l1 H1] [l2 H2]. unfold firstMatch, seq. rewrite H1. simpl. rewrite H2.
  simpl. by eexists.
Qed.

Lemma firstMatch_alt_l m1 m2 st a :
  firstMatch m1 st a -> firstMatch (alt m1 m2) st a.
Proof. intros [l H]. unfold firstMatch, alt. rewrite H. simpl. by eexists. Qed.

Lemma firstMatch_alt_r m1 m2 st a :
  m1 st = [] -> firstMatch m2 st a -> firstMatch (alt m1 m2) st a.
Proof.
  intros H1 [l H]. unfold firstMatch, alt. rewrite H1, H. simpl. by eexists.
Qed.

Lemma firstMatch_take m st a : firstMatch m st a -> firstMatch (optional m) st a.
Proof. apply firstMatch_alt_l. Qed.

Lemma firstMatch_skip m st : m st = [] -> firstMatch (optional m) st st.
Proof. intros H. apply firstMatch_alt_r; [done|]. by exists []. Qed.

Lemma firstMatch_class f st c s :
  rest st = String c s -> f c = true -> firstMatch (class f) st (set_rest st s).
Proof. intros E Hc. unfold firstMatch, class. rewrite E, Hc. by exists []. Qed.

Lemma class_fails f st : stops f (rest st) -> class f st = [].
Proof.
  unfold class, stops. destruct (rest st) as [|c s]; [done|]. by intros ->.
Qed.

Lemma star_rests_first f run stop :
  allChars f run = true -> stops f stop ->
  exists l, star_rests f (run ++ stop) = stop :: l.
Proof.
  intros Hr Hs. induction run as [|c run IH].
  - simpl. destruct stop as [|c s]; simpl in *; [by eexists|].
    rewrite Hs. by eexists.
  - simpl in Hr. apply andb_true_iff in Hr as [Hc Hr].
    destruct (IH Hr) as [l Hl]. simpl. rewrite Hc, Hl. simpl. by eexists.
Qed.

Lemma firstMatch_star f st run stop :
  rest st = run ++ stop -> allChars f run = true -> stops f stop ->
  firstMatch (star f) st (set_rest st stop).
Proof.
  intros E Hr Hs. unfold firstMatch, star. rewrite E.
  destruct (star_rests_first f run stop Hr Hs) as [l ->]. simpl. by eexists.
Qed.

Lemma firstMatch_plus f st run stop :
  rest st = run ++ stop -> nonEmpty run = true -> allChars f run = true ->
  stops f stop ->
  firstMatch (plus f) st (set_rest st stop).
Proof.
  intros E Hn Hr Hs. unfold firstMatch, plus. rewrite E.
  destruct run as [|c run]; [done|]. simpl in *.
  apply andb_true_iff in Hr as [Hc Hr]. rewrite Hc.
  destruct (star_rests_first f run stop Hr Hs) as [l ->]. simpl. by eexists.
Qed.

(** Every state [[f]+] can reach from a run of the class followed by
    [stop] has read a non-empty part of the run. *)
Lemma plus_rests f st run stop st' :
  rest st = run ++ stop -> allChars f run = true -> stops f stop ->
  In st' (plus f st) ->
  exists suf, rest st' = suf ++ stop /\ allChars f suf = true.
Proof.
  intros E Hr Hs. unfold plus. rewrite E.
  destruct run as [|c run]; simpl.
  - destruct stop as [|c s]; simpl; [done|]. unfold stops in Hs. by rewrite Hs.
  - simpl in Hr. apply andb_true_iff in Hr as [Hc Hr]. rewrite Hc.
    intros Hin. apply in_map_iff in Hin as (s' & <- & Hin). simpl.
    clear Hc E. revert s' Hin. induction run as [|d run IH]; intros s' Hin.
    + simpl in Hin. destruct stop as [|d s]; simpl in *.
      * destruct Hin as [<-|[]]. by exists "".
      * rewrite Hs in Hin. destruct Hin as [<-|[]]. by exists "".
    + simpl in Hr. apply andb_true_iff in Hr as [Hd Hr].
      simpl in Hin. rewrite Hd in Hin.
      apply in_app_or in Hin as [Hin|[<-|[]]]; [by apply IH|].
      exists (String d run). simpl. by rewrite Hd, Hr.
Qed.

Lemma string_app_length x y :
  String.length (x ++ y) = String.length x + String.length y.
Proof. induction x as [|c x IH]; simpl; [done|]. by rewrite IH. Qed.

Lemma substring_prefix x y : substring 0 (String.length x) (x ++ y) = x.
Proof.
  induction x as [|c x IH]; simpl; [by destruct y|]. by rewrite IH.
Qed.

Lemma consumed_app x y : consumed (x ++ y) y = x.
Proof.
  unfold consumed. rewrite string_app_length.
  replace (String.length x + String.length y - String.length y)
    with (String.length x) by lia.
  apply substring_prefix.
Qed.

Lemma firstMatch_capture1 m st a :
  firstMatch m st a ->
  firstMatch (capture1 m) st
    {| rest := rest a; group1 := Some (consumed (rest st) (rest a));
       group2 := group2 a |}.
Proof. intros [l H]. unfold firstMatch, capture1. rewrite H. simpl. by eexists. Qed.

Lemma firstMatch_capture2 m st a :
  firstMatch m st a ->
  firstMatch (capture2 m) st
    {| rest := rest a; group1 := group1 a;
       group2 := Some (consumed (rest st) (rest a)) |}.
Proof. intros [l H]. unfold firstMatch, capture2. rewrite H. simpl. by eexists. Qed.

Lemma exec_firstMatch m s st : firstMatch m (start s) st -> exec m s = Some st.
Proof. intros [l H]. rewrite RegexFacts.exec_eq, H. done. Qed.

End FirstMatch.

Module PackageRefs.
Import Regex FirstMatch.

#[local] Arguments Ascii.eqb : simpl never.

Lemma string_app_assoc x y z : ((x ++ y) ++ z = x ++ (y ++ z))%string.
Proof.
  induction x as [|c x IH]; [done|].
  change (String c ((x ++ y) ++ z) = String c (x ++ (y ++ z))). by rewrite IH.
Qed.

Lemma string_app_nil_r x : (x ++ "" = x)%string.
Proof.
  induction x as [|c x IH]; [done|].
  change (String c (x ++ "") = String c x). by rewrite IH.
Qed.

Lemma endsName_stops tail : endsName tail -> stops notSlashAt tail.
Proof. destruct tail as [|c t]; [done|]. by intros [->| ->]. Qed.

Lemma nonEmpty_first f s :
  nonEmpty s = true -> allChars f s = true ->
  exists c s', s = String c s' /\ f c = true.
Proof.
  destruct s as [|c s']; [done|]. simpl. intros _ H.
  apply andb_true_iff in H as [H _]. eauto.
Qed.

Lemma class_mk f c s g1 g2 :
  f c = true -> firstMatch (class f) (mk (String c s) g1 g2) (mk s g1 g2).
Proof. intros Hc. by apply (firstMatch_class f (mk (String c s) g1 g2) c s). Qed.

Lemma lit_mk c s g1 g2 : firstMatch (lit c) (mk (String c s) g1 g2) (mk s g1 g2).
Proof. apply class_mk. apply Ascii.eqb_refl. Qed.

Lemma plus_mk f run stop g1 g2 :
  nonEmpty run = true -> allChars f run = true -> stops f stop ->
  firstMatch (plus f) (mk (run ++ stop) g1 g2) (mk stop g1 g2).
Proof.
  intros Hn Ha Hs.
  by apply (firstMatch_plus f (mk (run ++ stop) g1 g2) run stop).
Qed.

Lemma star_mk f run stop g1 g2 :
  allChars f run = true -> stops f stop ->
  firstMatch (star f) (mk (run ++ stop) g1 g2) (mk stop g1 g2).
Proof.
  intros Ha Hs.
  by apply (firstMatch_star f (mk (run ++ stop) g1 g2) run stop).
Qed.

Lemma dot_rests_first s : oneLine s = true -> exists l, dot_rests s = "" :: l.
Proof.
  induction s as [|c s IH]; [by eexists|].
  change (oneLine (String c s)) with (dot (String c s) && oneLine s).
  intros H. apply andb_true_iff in H as [Hc Hs].
  change (dot_rests (String c s))
    with (if dot (String c s) then (dot_rests s ++ [String c s])%list
          else [String c s]).
  rewrite Hc. destruct (IH Hs) as [l ->]. by eexists.
Qed.

Lemma plusDot_mk s g1 g2 :
  nonEmpty s = true -> oneLine s = true ->
  firstMatch plusDot (mk s g1 g2) (mk "" g1 g2).
Proof.
  intros Hn Ha. destruct s as [|c s]; [done|].
  change (oneLine (String c s)) with (dot (String c s) && oneLine s) in Ha.
  apply andb_true_iff in Ha as [Hc Hs].
  unfold firstMatch, plusDot.
  change (rest (mk (String c s) g1 g2)) with (String c s). rewrite Hc.
  destruct (dot_rests_first s Hs) as [l ->]. by eexists.
Qed.

Lemma lit_fails c s g1 g2 :
  match s with EmptyString => True | String d _ => d <> c end ->
  lit c (mk s g1 g2) = [].
Proof.
  intros H. unfold lit. apply class_fails. simpl.
  destruct s as [|d t]; [done|]. simpl. by apply Ascii.eqb_neq.
Qed.

Lemma scheme_first sch (slash : bool) body g1 g2 :
  nonEmpty sch = true -> allChars notColon sch = true ->
  (slash = false -> match body with EmptyString => True | String d _ => d <> "/"%char end) ->
  firstMatch scheme
    (mk (sch ++ ":" ++ (if slash then "/" else "") ++ body) g1 g2)
    (mk body g1 g2).
Proof.
  intros Hn Hs Hb. unfold scheme. apply firstMatch_take.
  eapply firstMatch_seq;
    [by apply (plus_mk notColon sch (":" ++ (if slash then "/" else "") ++ body))|].
  eapply firstMatch_seq;
    [apply (lit_mk ":" ((if slash then "/" else "") ++ body))|].
  destruct slash.
  - apply firstMatch_take. apply (lit_mk "/" body).
  - apply firstMatch_skip. apply lit_fails. by apply Hb.
Qed.

Lemma package_first_plain name tail g1 g2 :
  nonEmpty name = true -> allChars notSlashAt name = true ->
  match tail with EmptyString => True | String c _ => c = "@"%char end ->
  firstMatch package (mk (name ++ tail) g1 g2) (mk tail (Some name) g2).
Proof.
  intros Hn Ha Ht.
  assert (stops notSlashAt tail) as Hstop
    by (destruct tail as [|c t]; [done|]; by subst c).
  assert (firstMatch package (mk (name ++ tail) g1 g2)
            (mk tail (Some (consumed (name ++ tail) tail)) g2)) as H;
    [|by rewrite consumed_app in H].
  unfold package.
  apply (firstMatch_capture1 _ (mk (name ++ tail) g1 g2) (mk tail g1 g2)).
  apply firstMatch_alt_r; [|by apply (plus_mk notSlashAt name tail)].
  (* the scoped branch finds nothing *)
  unfold seq at 1.
  destruct (nonEmpty_first _ _ Hn Ha) as (c & name' & -> & Hc).
  assert (c <> "@"%char /\ c <> "/"%char) as [Hc1 Hc2].
  { unfold notSlashAt in Hc. apply andb_true_iff in Hc as [H1 H2].
    apply negb_true_iff in H1, H2. by apply Ascii.eqb_neq in H1, H2. }
  assert (optional (lit "@") (mk (String c name' ++ tail) g1 g2)
          = [mk (String c name' ++ tail) g1 g2]) as ->.
  { unfold optional, alt. by rewrite lit_fails. }
  simpl flat_map. rewrite app_nil_r. unfold seq at 1.
  apply RegexFacts.flat_map_nil. intros a Hin.
  eapply (plus_rests notSlashAt _ (String c name') tail) in Hin;
    [|reflexivity|done|done].
  destruct Hin as (suf & Hr & Hsuf).
  unfold seq. destruct a as [ra a1 a2]. simpl in Hr. subst ra.
  change (flat_map (plus notSlashAt) (lit "/" (mk (suf ++ tail) a1 a2)) = []).
  rewrite lit_fails; [done|].
  destruct suf as [|d suf].
  - destruct tail as [|d t]; [done|]. by subst d.
  - simpl in Hsuf. apply andb_true_iff in Hsuf as [Hd _].
    unfold notSlashAt in Hd. apply andb_true_iff in Hd as [Hd _].
    apply negb_true_iff in Hd. by apply Ascii.eqb_neq in Hd.
Qed.

Lemma package_first_scoped scope name tail g1 g2 :
  nonEmpty scope = true -> allChars notSlashAt scope = true ->
  nonEmpty name = true -> allChars notSlashAt name = true ->
  endsName tail ->
  firstMatch package
    (mk ("@" ++ scope ++ "/" ++ name ++ tail) g1 g2)
    (mk tail (Some ("@" ++ scope ++ "/" ++ name)) g2).
Proof.
  intros Hn1 Ha1 Hn2 Ha2 Ht.
  assert (firstMatch package (mk ("@" ++ scope ++ "/" ++ name ++ tail) g1 g2)
            (mk tail (Some (consumed ("@" ++ scope ++ "/" ++ name ++ tail) tail)) g2))
    as H.
  { unfold package.
    apply (firstMatch_capture1 _ (mk ("@" ++ scope ++ "/" ++ name ++ tail) g1 g2)
             (mk tail g1 g2)).
    apply firstMatch_alt_l.
    eapply firstMatch_seq;
      [apply firstMatch_take, (lit_mk "@" (scope ++ "/" ++ name ++ tail))|].
    eapply firstMatch_seq;
      [by apply (plus_mk notSlashAt scope ("/" ++ name ++ tail))|].
    eapply firstMatch_seq; [apply (lit_mk "/" (name ++ tail))|].
    apply (plus_mk notSlashAt name tail); [done|done|by apply endsName_stops]. }
  replace ("@" ++ scope ++ "/" ++ name ++ tail)%string
    with (("@" ++ scope ++ "/" ++ name) ++ tail)%string in H at 2.
  - by rewrite consumed_app in H.
  - change (String "@" ((scope ++ String "/" name) ++ tail)
            = String "@" (scope ++ String "/" (name ++ tail))).
    by rewrite string_app_assoc.
Qed.

Lemma version_first (ver : option string) tail2 g1 g2 :
  optAll (allChars notSlash) ver = true ->
  match tail2 with EmptyString => True | String c _ => c = "/"%char end ->
  firstMatch version (mk (optPart "@" ver "" ++ tail2) g1 g2) (mk tail2 g1 g2).
Proof.
  intros Hv Ht. unfold version. destruct ver as [v|]; simpl in Hv.
  - apply firstMatch_take.
    change (optPart "@" (Some v) "" ++ tail2)%string
      with (String "@" ((v ++ "") ++ tail2)).
    rewrite string_app_nil_r.
    eapply firstMatch_seq; [apply (lit_mk "@" (v ++ tail2))|].
    apply (star_mk notSlash v tail2); [done|].
    destruct tail2 as [|c t]; [done|]. by subst c.
  - apply firstMatch_skip. unfold seq.
    change (optPart "@" None "" ++ tail2)%string with tail2.
    rewrite lit_fails; [done|].
    destruct tail2 as [|c t]; [done|]. by subst c.
Qed.

Lemma subpath_first (sub : option string) g1 :
  optAll (fun s => nonEmpty s && oneLine s) sub = true ->
  firstMatch subpath (mk (optPart "/" sub "") g1 None) (mk "" g1 sub).
Proof.
  intros Hs. unfold subpath. destruct sub as [p|]; simpl in Hs.
  - apply andb_true_iff in Hs as [Hn Ha].
    apply firstMatch_take.
    change (optPart "/" (Some p) "") with (String "/" (p ++ "")).
    eapply firstMatch_seq; [apply (lit_mk "/" (p ++ ""))|].
    assert (firstMatch (capture2 plusDot) (mk (p ++ "") g1 None)
              (mk "" g1 (Some (consumed (p ++ "") "")))) as H.
    { apply (firstMatch_capture2 _ (mk (p ++ "") g1 None) (mk "" g1 None)).
      rewrite string_app_nil_r. by apply plusDot_mk. }
    by rewrite consumed_app in H.
  - apply firstMatch_skip. unfold seq.
    change (optPart "/" None "") with "". by rewrite lit_fails.
Qed.

Lemma scoped_app s name tail :
  ((optPart "@" (Some s) "/" ++ name) ++ tail
   = "@" ++ s ++ "/" ++ name ++ tail)%string.
Proof.
  change ((String "@" (s ++ "/") ++ name) ++ tail
          = String "@" (s ++ String "/" (name ++ tail)))%string.
  rewrite string_app_assoc.
  change (String "@" ((s ++ "/") ++ name ++ tail)
          = String "@" (s ++ String "/" (name ++ tail))).
  by rewrite string_app_assoc.
Qed.

Lemma package_first (scope : option string) name tail g1 g2 :
  optAll (fun s => nonEmpty s && allChars notSlashAt s) scope = true ->
  nonEmpty name = true -> allChars notSlashAt name = true ->
  endsName tail ->
  (scope = None ->
   match tail with EmptyString => True | String c _ => c = "@"%char end) ->
  firstMatch package
    (mk ((optPart "@" scope "/" ++ name) ++ tail) g1 g2)
    (mk tail (Some (optPart "@" scope "/" ++ name)) g2).
Proof.
  intros Hs Hn Ha Ht Hp. destruct scope as [s|].
  - simpl in Hs. apply andb_true_iff in Hs as [Hs1 Hs2].
    rewrite scoped_app.
    pose proof (scoped_app s name "") as E. rewrite !string_app_nil_r in E.
    rewrite E. by apply package_first_scoped.
  - change ((optPart "@" None "/" ++ name) ++ tail)%string with (name ++ tail)%string.
    change (optPart "@" None "/" ++ name)%string with name.
    apply package_first_plain; [done|done|by apply Hp].
Qed.

Lemma refTail_ends ver sub : endsName (optPart "@" ver "" ++ optPart "/" sub "").
Proof.
  destruct ver as [v|]; [by left|].
  destruct sub as [p|]; [by right|done].
Qed.

(** The parts of a well-formed reference, as the expression finds them. *)
Lemma exec_render (r : PackageRef) :
  wellFormedRef r = true ->
  exec regex (render r) = Some (mk "" (Some (packageName r)) (ref_subpath r)).
Proof.
  unfold wellFormedRef. intros H.
  apply andb_true_iff in H as [H Hshape].
  apply andb_true_iff in H as [H Hsub].
  apply andb_true_iff in H as [H Hver].
  apply andb_true_iff in H as [H Hname2].
  apply andb_true_iff in H as [H Hname1].
  apply andb_true_iff in H as [H Hscope].
  apply andb_true_iff in H as [Hsch1 Hsch2].
  destruct r as [sch slash scope name ver sub]. simpl in *.
  assert (exists c n', (optPart "@" scope "/" ++ name)%string = String c n'
                       /\ c <> "/"%char) as (c0 & n0 & Epkg & Hc0).
  { destruct scope as [s|]; [by exists "@"%char, ((s ++ "/") ++ name)%string|].
    destruct (nonEmpty_first _ _ Hname1 Hname2) as (c & n' & -> & Hc).
    exists c, n'. split; [done|].
    unfold Regex.notSlashAt in Hc. apply andb_true_iff in Hc as [Hc _].
    apply negb_true_iff in Hc. by apply Ascii.eqb_neq in Hc. }
  assert (firstMatch Regex.regex
            (mk (sch ++ ":" ++ (if slash then "/" else "")
                 ++ (optPart "@" scope "/" ++ name)
                 ++ optPart "@" ver "" ++ optPart "/" sub "") None None)
            (mk "" (Some (optPart "@" scope "/" ++ name)%string) sub)) as Hfm.
  { unfold Regex.regex.
    eapply FirstMatch.firstMatch_seq.
    { apply (scheme_first sch slash); [done|done|].
      intros _. rewrite Epkg. exact Hc0. }
    eapply FirstMatch.firstMatch_seq.
    { apply (package_first scope name); try done.
      - apply refTail_ends.
      - intros ->. destruct ver as [v|]; [done|]. by destruct sub. }
    eapply FirstMatch.firstMatch_seq.
    { apply (version_first ver); [done|]. by destruct sub. }
    by apply subpath_first. }
  by apply FirstMatch.exec_firstMatch.
Qed.

Lemma packageName_nonEmpty (r : PackageRef) :
  wellFormedRef r = true -> orNull (Some (packageName r)) = Some (packageName r).
Proof.
  unfold wellFormedRef, packageName. intros H.
  rewrite !andb_true_iff in H.
  destruct H as (((((((_ & _) & _) & H) & _) & _) & _) & _).
  destruct (ref_scope r); [done|].
  by destruct (ref_name r).
Qed.

Lemma subpath_nonEmpty (r : PackageRef) :
  wellFormedRef r = true -> orNull (ref_subpath r) = ref_subpath r.
Proof.
  unfold wellFormedRef. intros H.
  rewrite !andb_true_iff in H.
  destruct H as (((((((_ & _) & _) & _) & _) & _) & H) & _).
  by destruct (ref_subpath r) as [[|c p]|].
Qed.

End PackageRefs.

(** X11. A registry specifier written as
    [scheme:[/][@scope/]name[@version][/subpath]] is taken apart as
    written: the package name is the name with its scope, the version is
    dropped, and the subpath is what follows the slash after it, or [null]
    when there is none. (A name without scope and without version but with
    a subpath is not among these: there the first segment of the subpath
    is read as part of the name.) *)
Theorem extractPackageAndPath_render (r : PackageRef) :
  wellFormedRef r = true ->
  extractPackageAndPath (render r) = (Some (packageName r), ref_subpath r).
Proof.
  intros Hw. unfold extractPackageAndPath.
  rewrite PackageRefs.exec_render by done.
  change (Regex.group1 (mk "" (Some (packageName r)) (ref_subpath r)))
    with (Some (packageName r)).
  change (Regex.group2 (mk "" (Some (packageName r)) (ref_subpath r)))
    with (ref_subpath r).
  by rewrite PackageRefs.packageName_nonEmpty, PackageRefs.subpath_nonEmpty.
Qed.

Lemma extractPackageAndPath_render_witness :
  extractPackageAndPath
    (render {| ref_scheme := "npm"; ref_slash := true; ref_scope := Some "types";
               ref_name := "node"; ref_version := Some "^22.0.0";
               ref_subpath := Some "fs/promises" |})
  = (Some "@types/node", Some "fs/promises").
Proof.
  apply (extractPackageAndPath_render
           {| ref_scheme := "npm"; ref_slash := true; ref_scope := Some "types";
              ref_name := "node"; ref_version := Some "^22.0.0";
              ref_subpath := Some "fs/promises" |}).
  reflexivity.
Defined.

(** The subpath ends at a line terminator, U+2028 (the bytes E2 80 A8)
    among them: the dot of the expression does not read it. *)
Example extractPackageAndPath_line_separator :
  extractPackageAndPath
    ("npm:@a/b/x" ++ String "226" (String "128" (String "168" "y")))
  = (Some "@a/b", Some "x").
Proof. vm_compute. reflexivity. Qed.


(** ** The import-map cache *)

Lemma JSON_scan_char c r :
  JSON_scan (JSON_quote_char c ++ r) = pushChar c (JSON_scan r).
Proof. destruct c as [[] [] [] [] [] [] [] []]; reflexivity. Qed.

Lemma JSON_scan_escape s r :
  JSON_scan (JSON_escape s ++ String dquote r) = Some (s, r).
Proof.
  induction s as [|c s IH]; [reflexivity|].
  change (JSON_escape (String c s)) with (JSON_quote_char c ++ JSON_escape s).
  by rewrite PackageRefs.string_app_assoc, JSON_scan_char, IH.
Qed.

Lemma parseKey_importMapKey id importer :
  parseKey (importMapKey id importer) = Some (id, importer).
Proof.
  unfold parseKey, importMapKey, JSON_quote.
  destruct importer as [i|].
  - change (string_drop 7 _)
      with ((JSON_escape id ++ String dquote "")
            ++ ("," ++ String dquote (JSON_escape "importer" ++ String dquote "")
                ++ ":" ++ String dquote (JSON_escape i ++ String dquote "")) ++ "}").
    rewrite PackageRefs.string_app_assoc.
    change (String dquote "" ++ ?x) with (String dquote x).
    rewrite JSON_scan_escape.
    change (String.eqb _ "}") with false. cbv iota.
    change (string_drop 13 _)
      with ((JSON_escape i ++ String dquote "") ++ "}").
    rewrite PackageRefs.string_app_assoc.
    change (String dquote "" ++ ?x) with (String dquote x).
    by rewrite JSON_scan_escape.
  - change (string_drop 7 _)
      with ((JSON_escape id ++ String dquote "") ++ "" ++ "}").
    rewrite PackageRefs.string_app_assoc.
    change (String dquote "" ++ ?x) with (String dquote x).
    by rewrite JSON_scan_escape.
Qed.

(** X12. The key of the import-map cache tells identifier and importer
    apart: two calls share a key only if they have the same identifier and
    the same importer (an importer that is absent and one that is the empty
    string do not share one), whatever characters the strings hold. *)
Theorem importMapKey_inj (id1 id2 : string) (importer1 importer2 : option string) :
  importMapKey id1 importer1 = importMapKey id2 importer2 ->
  id1 = id2 /\ importer1 = importer2.
Proof.
  intros E. apply (f_equal parseKey) in E.
  rewrite !parseKey_importMapKey in E. by injection E.
Qed.

Lemma importMapKey_inj_witness :
  "react" = "react" /\ Some "/src/a.ts" = Some "/src/a.ts".
Proof.
  apply (importMapKey_inj "react" "react" (Some "/src/a.ts") (Some "/src/a.ts")).
  reflexivity.
Defined.

(** X13. The import-map cache is transparent. As long as every entry of
    the cache is what an uncached lookup would give (as in the empty cache
    the plugin starts with), a call returns exactly what the uncached
    lookup gives for its identifier and importer, and the cache it leaves
    has the same property; so no sequence of calls ever returns a value
    cached for another identifier or importer. *)
Theorem resolveFromImportMap_transparent
    (h : Host) (id : string) (importer : option string)
    (cache : gmap string (option string)) :
  coherent h ∅
  /\ (coherent h cache ->
      fst (resolveFromImportMap h id importer cache) = importMapLookup h id importer
      /\ coherent h (snd (resolveFromImportMap h id importer cache))).
Proof.
  split; [intros i m v; by rewrite lookup_empty|].
  intros Hc. unfold resolveFromImportMap, importMapLookup.
  destruct (cache !! importMapKey id importer) as [v|] eqn:E; simpl.
  - split; [|done]. apply Hc in E. unfold importMapLookup in E. by rewrite E.
  - destruct (match truthy importer with
              | Some i => importerUrl h i
              | None => Normal (importMapBaseUrl h)
              end) as [url|] eqn:Eu; simpl; [|done].
    split; [done|]. intros id' imp' v' Hl.
    destruct (decide (importMapKey id importer = importMapKey id' imp')) as [Ek|Ek].
    + rewrite <- Ek, lookup_insert_eq in Hl. injection Hl as <-.
      apply (f_equal parseKey) in Ek. rewrite !parseKey_importMapKey in Ek.
      injection Ek as <- <-.
      unfold importMapLookup. by rewrite Eu.
    + rewrite lookup_insert_ne in Hl by done. by apply Hc.
Qed.

Lemma resolveFromImportMap_transparent_witness :
  fst (resolveFromImportMap sampleHost "lodash" None ∅)
  = importMapLookup sampleHost "lodash" None.
Proof.
  destruct (resolveFromImportMap_transparent sampleHost "lodash" None ∅) as [H0 H].
  apply H. exact H0.
Defined.

Lemma resolveFromImportMap_keeps h id importer cache k v :
  cache !! k = Some v ->
  snd (resolveFromImportMap h id importer cache) !! k = Some v.
Proof.
  intros Hk. unfold resolveFromImportMap.
  destruct (cache !! importMapKey id importer) as [v0|] eqn:E; [done|].
  destruct (match truthy importer with
            | Some i => importerUrl h i
            | None => Normal (importMapBaseUrl h)
            end); simpl; [|done].
  rewrite lookup_insert_ne; [done|]. intros <-. congruence.
Qed.

(** X14. The import-map cache is written once and caches failures too. A
    call never changes an entry that is there; a call that returns stores
    what it returns, [null] included (the library threw or found nothing),
    so that the same call made again, with whatever the library would now
    say, returns the same value and leaves the cache alone; a call that
    throws, because the importer is neither a URL nor an absolute path,
    stores nothing. *)
Theorem resolveFromImportMap_memo
    (h : Host) (id : string) (importer : option string)
    (cache : gmap string (option string)) :
  let r := resolveFromImportMap h id importer cache in
  (forall k v, cache !! k = Some v -> snd r !! k = Some v)
  /\ (forall v,
        fst r = Normal v ->
        snd r !! importMapKey id importer = Some v
        /\ forall h', resolveFromImportMap h' id importer (snd r) = (Normal v, snd r))
  /\ (fst r = ThrowTypeError -> snd r = cache).
Proof.
  intros r. subst r. unfold resolveFromImportMap.
  destruct (cache !! importMapKey id importer) as [v0|] eqn:E; simpl.
  - split; [done|]. split; [|done].
    intros v [= <-]. split; [done|]. intros h'.
    unfold resolveFromImportMap. by rewrite E.
  - destruct (match truthy importer with
              | Some i => importerUrl h i
              | None => Normal (importMapBaseUrl h)
              end) as [url|] eqn:Eu; simpl; [|done].
    split; [|split; [|done]].
    + intros k v Hk. rewrite lookup_insert_ne; [done|]. intros <-. congruence.
    + intros v [= <-]. rewrite lookup_insert_eq. split; [done|].
      intros h'. done.
Qed.

Lemma resolveFromImportMap_memo_witness :
  snd (resolveFromImportMap sampleHost "react" (Some "/src/a.ts") ∅)
    !! importMapKey "react" (Some "/src/a.ts") = Some None.
Proof.
  destruct (resolveFromImportMap_memo sampleHost "react" (Some "/src/a.ts") ∅)
    as (_ & H & _).
  apply (H None). reflexivity.
Defined.

(** ** [resolveId] *)

Lemma isPath_dispatch pn s st :
  isPath s = true -> resolveId_dispatch pn s st = (Normal (ResolveReturn None), st).
Proof.
  unfold isPath, startsWith. intros H.
  destruct s as [|c s]; [discriminate H|].
  destruct c as [[] [] [] [] [] [] [] []];
    try (vm_compute in H; discriminate H); reflexivity.
Qed.

(** X15. A relative or absolute path cannot be resolved without a usable
    importer: when the specifier starts with a dot or a slash and the
    importer is absent, empty, or lies under [node_modules], [resolveId]
    returns nothing (the host's resolution applies) and touches neither
    the engine nor the import-map cache. *)
Theorem resolveId_path_without_importer
    (h : Host) (specifier : string) (importer : option string) (pl : Plugin) :
  isPath specifier = true ->
  (truthy importer = None
   \/ exists i, truthy importer = Some i /\ includes i "node_modules" = true) ->
  resolveId h specifier importer pl = (Normal (ResolveReturn None), pl).
Proof.
  intros Hp Hi. unfold resolveId.
  assert (rewriteId h specifier importer = Normal specifier) as ->.
  { unfold rewriteId. rewrite Hp. destruct Hi as [->|(i & -> & ->)]; done. }
  rewrite Hp. simpl. rewrite isPath_dispatch by done. simpl. by destruct pl.
Qed.

Lemma resolveId_path_witness :
  resolveId sampleHost "./util.js" (Some "/proj/node_modules/pkg/index.js") newPlugin
  = (Normal (ResolveReturn None), newPlugin).
Proof.
  apply resolveId_path_without_importer; [reflexivity|].
  right. eexists. split; reflexivity.
Defined.

(** A [file:] identifier that is no URL makes the call throw. *)
Lemma dispatch_file_throws pn s st :
  startsWith s "file:" = true -> pn s = None ->
  resolveId_dispatch pn s st = (ThrowTypeError, st).
Proof.
  intros Hf Hn. unfold resolveId_dispatch. rewrite Hf, Hn.
  destruct (startsWith s "node:") eqn:E; [|done].
  unfold startsWith in *. destruct s as [|c s]; [discriminate Hf|].
  destruct c as [[] [] [] [] [] [] [] []];
    try (vm_compute in Hf; discriminate Hf); vm_compute in E; discriminate E.
Qed.

Lemma dispatch_engine pn s st :
  (forall p, fst (resolveId_dispatch pn s st) <> Normal (ResolveAwaitDeno p)) ->
  snd (resolveId_dispatch pn s st) = st.
Proof.
  unfold resolveId_dispatch.
  destruct (startsWith s "node:"); [done|].
  destruct (startsWith s "file:"); [by destruct (pn s)|].
  destruct (startsWith s "jsr:");
    [simpl; intros H; by destruct (H (fst (denoResolve s st)))|].
  destruct (startsWith s "npm:"); [done|].
  by destruct (startsWith s "http:" || startsWith s "https:").
Qed.



Lemma startsWith_npm_render r :
  ref_scheme r = "npm" ->
  startsWith (render r) "node:" = false
  /\ startsWith (render r) "file:" = false
  /\ startsWith (render r) "jsr:" = false
  /\ startsWith (render r) "npm:" = true.
Proof.
  destruct r as [sch slash scope name ver sub]. simpl. intros ->.
  unfold render. simpl ref_scheme.
  change ("npm" ++ ":" ++ ?x)%string
    with (String "n" (String "p" (String "m" (String ":" x)))).
  unfold startsWith. repeat split; try reflexivity.
  match goal with |- context [String ":" ?x] => by destruct x end.
Qed.

(** X17. An [npm:] specifier is handed to the host without its scheme and
    version. When the identifier, after the import map has been applied,
    is a registry specifier [npm:[/][@scope/]name[@version][/subpath]],
    [resolveId] asks the host to resolve [[@scope/]name[/subpath]] and
    leaves the engine as it is: no discovery is started for it. *)
Theorem resolveId_npm_delegates
    (h : Host) (specifier : string) (importer : option string) (pl : Plugin)
    (mapped : option string) (r : PackageRef) :
  isPath specifier = false ->
  fst (resolveFromImportMap h specifier importer (resolveModuleSpecifierCache pl))
  = Normal mapped ->
  default specifier mapped = render r ->
  ref_scheme r = "npm" ->
  wellFormedRef r = true ->
  fst (resolveId h specifier importer pl) = Normal (ResolveAwaitHost (hostRequest r))
  /\ engine (snd (resolveId h specifier importer pl)) = engine pl.
Proof.
  intros Hp Hm Hd Hs Hw. unfold resolveId.
  assert (rewriteId h specifier importer = Normal specifier) as ->
    by (unfold rewriteId; by rewrite Hp).
  rewrite Hp, Hm, Hd.
  destruct (startsWith_npm_render r Hs) as (H1 & H2 & H3 & H4).
  unfold resolveId_dispatch. rewrite H1, H2, H3, H4. simpl.
  unfold npmRequest, extractPackageAndPath. rewrite PackageRefs.exec_render by done.
  change (Regex.group1 (mk "" (Some (packageName r)) (ref_subpath r)))
    with (Some (packageName r)).
  change (Regex.group2 (mk "" (Some (packageName r)) (ref_subpath r)))
    with (ref_subpath r).
  rewrite PackageRefs.packageName_nonEmpty, PackageRefs.subpath_nonEmpty by done.
  unfold hostRequest. by destruct (ref_subpath r).
Qed.

Lemma resolveId_npm_witness :
  fst (resolveId sampleHost "lodash" None newPlugin)
  = Normal (ResolveAwaitHost "lodash/fp").
Proof.
  apply (resolveId_npm_delegates sampleHost "lodash" None newPlugin
           (Some "npm:lodash@4.17.21/fp")
           {| ref_scheme := "npm"; ref_slash := false; ref_scope := None;
              ref_name := "lodash"; ref_version := Some "4.17.21";
              ref_subpath := Some "fp" |}); reflexivity.
Defined.

(** ** [buildStart] *)

Lemma resume_keeps p r st k :
  is_Some (resolveDenoInfoCache st !! k) ->
  is_Some (resolveDenoInfoCache (resume p r st) !! k).
Proof.
  intros H. change (resume p r st) with (step st (CommandSettles p r)).
  rewrite step_cache.
  destruct (projected (CommandSettles p r) st); [by apply cacheDenoInfo_keeps|done].
Qed.

Lemma resume_spawned p r st : spawned (resume p r st) = spawned st.
Proof.
  unfold resume. destruct (promises st !! p) as [[s| |]|]; try done.
  by rewrite denoResolve_body_eq.
Qed.

(** One turn of the loop: the state once the entry's resolution has settled. *)
Lemma entry_keeps settle entry st k :
  is_Some (resolveDenoInfoCache st !! k) ->
  is_Some (resolveDenoInfoCache
             (resume (fst (denoResolve entry st)) (settle entry)
                     (snd (denoResolve entry st))) !! k).
Proof. intros H. apply resume_keeps. by rewrite denoResolve_cache. Qed.

Lemma entry_cached settle entry st v :
  Inv st ->
  await (resume (fst (denoResolve entry st)) (settle entry)
                (snd (denoResolve entry st)))
        (fst (denoResolve entry st)) = Some (inr v) ->
  is_Some (resolveDenoInfoCache
             (resume (fst (denoResolve entry st)) (settle entry)
                     (snd (denoResolve entry st))) !! entry).
Proof.
  intros HI Ha.
  destruct (resolveDenoInfoCache st !! entry) as [c|] eqn:Hc.
  - apply entry_keeps. by rewrite Hc.
  - pose proof (denoResolve_miss entry st Hc) as Hfl.
    apply (inv_inflight _ (Inv_denoResolve entry st HI)) in Hfl.
    rewrite (await_resume _ _ entry) in Ha by done. injection Ha as Ho.
    rewrite (resume_pending _ entry) by done. simpl.
    apply outcome_cached in Ho. by rewrite Ho.
Qed.

Lemma buildStart_entries_keeps settle entries st k :
  is_Some (resolveDenoInfoCache st !! k) ->
  is_Some (resolveDenoInfoCache (snd (buildStart_entries settle entries st)) !! k).
Proof.
  revert st. induction entries as [|entry rest IH]; intros st H; [done|].
  simpl.
  destruct (await _ _) as [[e|v]|]; simpl; try by apply entry_keeps.
  apply IH. by apply entry_keeps.
Qed.

Lemma buildStart_entries_cached settle entries st :
  Inv st ->
  fst (buildStart_entries settle entries st) = Some (inr tt) ->
  forall entry, entry ∈ entries ->
    is_Some (resolveDenoInfoCache
               (snd (buildStart_entries settle entries st)) !! entry).
Proof.
  revert st. induction entries as [|e rest IH]; intros st HI Hok entry Hin.
  - by apply elem_of_nil in Hin.
  - simpl in *.
    destruct (await _ _) as [[err|v]|] eqn:Ha; simpl in *; try done.
    apply elem_of_cons in Hin as [->|Hin].
    + apply buildStart_entries_keeps. by eapply entry_cached.
    + apply IH; [|done|done]. by apply Inv_resume, Inv_denoResolve.
Qed.

(** X18. When [buildStart] completes, every entry point is in the cache,
    and stays there: whatever happens to the engine afterwards, resolving
    an entry point is answered from the cache and starts no subprocess. *)
Theorem buildStart_caches_entry_points
    (evs : list Event) (settle : string -> CommandSettled)
    (denoInfoCache : option DenoInfoJsonV1) (entryPoints : list string) :
  let r := buildStart settle denoInfoCache entryPoints (run evs newEngine) in
  fst r = Some (inr tt) ->
  forall entry evs',
    entry ∈ entryPoints ->
    let st := run evs' (snd r) in
    is_Some (resolveDenoInfoCache st !! entry)
    /\ spawned (snd (denoResolve entry st)) = spawned st.
Proof.
  intros r Hok entry evs' Hin st.
  assert (is_Some (resolveDenoInfoCache st !! entry)) as [c Hc].
  { subst st. apply run_keeps. subst r. unfold buildStart in *.
    apply buildStart_entries_cached; [|done|done].
    destruct denoInfoCache; [apply Inv_cache_modify|]; apply Inv_reachable. }
  split; [by rewrite Hc|]. by rewrite (denoResolve_hit _ _ c).
Qed.

Lemma buildStart_caches_witness :
  is_Some (resolveDenoInfoCache
             (run []
                (snd (buildStart (fun _ => exited 0 (JsonReport report_ab)) None
                        ["jsr:@a/b"] (run [] newEngine)))) !! "jsr:@a/b").
Proof.
  apply (buildStart_caches_entry_points [] (fun _ => exited 0 (JsonReport report_ab))
           None ["jsr:@a/b"]).
  - vm_compute. reflexivity.
  - apply list_elem_of_In. left. reflexivity.
Defined.

(** X19. [buildStart] resolves the entry points in order and gives up at
    the first that fails: once the loop has ended on a prefix of the entry
    points without completing, the entry points after it change nothing,
    neither the result nor the engine; and when it completes on the
    prefix, it goes on with the rest from the state reached. *)
Theorem buildStart_entries_app
    (settle : string -> CommandSettled) (done_ rest : list string) (st : Engine) :
  (fst (buildStart_entries settle done_ st) = Some (inr tt) ->
   buildStart_entries settle (done_ ++ rest) st
   = buildStart_entries settle rest (snd (buildStart_entries settle done_ st)))
  /\ (fst (buildStart_entries settle done_ st) <> Some (inr tt) ->
      buildStart_entries settle (done_ ++ rest) st
      = buildStart_entries settle done_ st).
Proof.
  revert st. induction done_ as [|entry l IH]; intros st; simpl.
  - split; [done|]. intros H. by destruct H.
  - destruct (await _ _) as [[e|v]|]; simpl; try (split; [done|done]).
    apply IH.
Qed.

Lemma buildStart_entries_app_witness :
  buildStart_entries (fun _ => OutputRejected) (["jsr:@a/b"] ++ ["jsr:@c/d"]) newEngine
  = buildStart_entries (fun _ => OutputRejected) ["jsr:@a/b"] newEngine.
Proof.
  apply (buildStart_entries_app (fun _ => OutputRejected) ["jsr:@a/b"] ["jsr:@c/d"]).
  vm_compute. discriminate.
Defined.

Lemma buildStart_entries_hits settle entries st :
  (forall entry, entry ∈ entries -> is_Some (resolveDenoInfoCache st !! entry)) ->
  fst (buildStart_entries settle entries st) = Some (inr tt)
  /\ spawned (snd (buildStart_entries settle entries st)) = spawned st
  /\ resolveDenoInfoCache (snd (buildStart_entries settle entries st))
     = resolveDenoInfoCache st
  /\ resolvePromises (snd (buildStart_entries settle entries st))
     = resolvePromises st.
Proof.
  revert st. induction entries as [|entry rest IH]; intros st H; [done|].
  destruct (H entry) as [c Hc]; [by left|].
  simpl. rewrite (denoResolve_hit _ _ c) by done. simpl.
  rewrite resume_not_pending
    by (intros s; simpl; by rewrite lookup_app_r, Nat.sub_diag by lia).
  match goal with |- context [await ?a ?b] =>
    assert (await a b = Some (inr c)) as ->
      by (unfold await; simpl; by rewrite lookup_app_r, Nat.sub_diag by lia) end.
  match goal with |- context [buildStart_entries settle rest ?st1] =>
    destruct (IH st1) as (H1 & H2 & H3 & H4) end.
  { intros e He. simpl. apply H. by right. }
  by rewrite H1, H2, H3, H4.
Qed.

(** X20. A report given to the constructor that covers the entry points
    spares every discovery: when each entry point is a key the report
    writes (an entry point in the local file system is such a key as a
    path, without the file scheme), [buildStart] completes without
    starting a subprocess, and the cache is the projection of the report. *)
Theorem buildStart_seeded
    (settle : string -> CommandSettled) (info : DenoInfoJsonV1)
    (entryPoints : list string) (st : Engine) :
  (forall entry, entry ∈ entryPoints -> entry ∈ reportKeys info) ->
  let r := buildStart settle (Some info) entryPoints st in
  fst r = Some (inr tt)
  /\ spawned (snd r) = spawned st
  /\ resolvePromises (snd r) = resolvePromises st
  /\ resolveDenoInfoCache (snd r) = cacheDenoInfo info (resolveDenoInfoCache st).
Proof.
  intros H r. subst r. unfold buildStart.
  destruct (buildStart_entries_hits settle entryPoints
              (snd (cache_modify (cacheDenoInfo info) st))) as (H1 & H2 & H3 & H4).
  - intros entry Hin. simpl. apply cacheDenoInfo_lookup_written. by apply H.
  - by rewrite H1, H2, H3, H4.
Qed.

Lemma buildStart_seeded_witness :
  fst (buildStart (fun _ => OutputRejected) (Some report_file_a) ["/src/a.ts"] newEngine)
  = Some (inr tt).
Proof.
  apply (buildStart_seeded (fun _ => OutputRejected) report_file_a ["/src/a.ts"]
           newEngine).
  intros entry H. apply list_elem_of_In in H. destruct H as [<-|[]].
  apply list_elem_of_In. left. reflexivity.
Defined.

Lemma denoResolve_invocations_other entry s st :
  entry <> s -> invocations s (snd (denoResolve entry st)) = invocations s st.
Proof.
  intros Hne. unfold invocations, denoResolve.
  destruct (resolveDenoInfoCache st !! entry); [done|].
  destruct (resolvePromises st !! entry); [done|]. simpl.
  by rewrite filter_snoc_other.
Qed.

Lemma buildStart_entries_invocations_cached settle entries st s :
  is_Some (resolveDenoInfoCache st !! s) ->
  invocations s (snd (buildStart_entries settle entries st)) = invocations s st.
Proof.
  revert st. induction entries as [|entry rest IH]; intros st [c Hc]; [done|].
  assert (invocations s (resume (fst (denoResolve entry st)) (settle entry)
                                (snd (denoResolve entry st)))
          = invocations s st) as Hstep.
  { unfold invocations. rewrite resume_spawned.
    destruct (decide (entry = s)) as [->|Hne].
    - by rewrite (denoResolve_hit _ _ c).
    - by apply denoResolve_invocations_other. }
  simpl. destruct (await _ _) as [[e|v]|]; simpl; try done.
  rewrite IH; [done|]. apply entry_keeps. by rewrite Hc.
Qed.

(** X21. [buildStart] starts at most one subprocess for a specifier, also
    when an entry point is listed more than once: an entry point whose
    resolution succeeded is cached when it comes up again, and one whose
    resolution failed ends the loop. *)
Theorem buildStart_invocations
    (evs : list Event) (settle : string -> CommandSettled)
    (denoInfoCache : option DenoInfoJsonV1) (entryPoints : list string)
    (s : string) :
  let st := run evs newEngine in
  invocations s (snd (buildStart settle denoInfoCache entryPoints st))
  <= S (invocations s st).
Proof.
  intros st. unfold buildStart.
  set (st0 := match denoInfoCache with
              | Some info => snd (cache_modify (cacheDenoInfo info) st)
              | None => st
              end).
  assert (Inv st0) as HI
    by (subst st0; destruct denoInfoCache; [apply Inv_cache_modify|];
        apply Inv_reachable).
  assert (invocations s st0 = invocations s st) as <-
    by (subst st0; by destruct denoInfoCache).
  clearbody st0. clear st. revert st0 HI.
  induction entryPoints as [|entry rest IH]; intros st HI; simpl; [lia|].
  pose proof (Inv_resume (fst (denoResolve entry st)) (settle entry) _
                (Inv_denoResolve entry st HI)) as HI1.
  assert (invocations s (resume (fst (denoResolve entry st)) (settle entry)
                                (snd (denoResolve entry st)))
          = invocations s (snd (denoResolve entry st))) as Hres
    by (unfold invocations; by rewrite resume_spawned).
  destruct (await _ _) as [[e|v]|] eqn:Ha; simpl.
  - rewrite Hres. apply denoResolve_invocations_le.
  - destruct (decide (entry = s)) as [->|Hne].
    + rewrite buildStart_entries_invocations_cached by (by eapply entry_cached).
      rewrite Hres. apply denoResolve_invocations_le.
    + specialize (IH _ HI1). rewrite Hres in IH.
      by rewrite denoResolve_invocations_other in IH.
  - rewrite Hres. apply denoResolve_invocations_le.
Qed.

Lemma lookup_projected rs ms cache k :
  k ∈ flat_map (moduleKeys rs) ms ->
  cacheDenoInfo {| redirects := rs; modules := ms |} cache !! k
  = projectedEntry rs ms k.
Proof.
  intros H. rewrite cacheDenoInfo_lookup.
  apply projectedEntry_written in H as [e ->]. done.
Qed.

(** ** Discoveries that settle in either order *)

(** X22. Two discoveries in flight may settle in either order. When each
    delivers a report that writes the specifier it was started for, and
    the two reports agree on the keys they both write, the engine ends in
    the same state whichever settles first: the same cache, the same
    in-flight map, and each promise fulfilled with the same entry. *)
Theorem settle_order_irrelevant
    (st : Engine) (p1 p2 : nat) (s1 s2 : string) (r1 r2 : CommandSettled)
    (info1 info2 : DenoInfoJsonV1) :
  p1 <> p2 ->
  promises st !! p1 = Some (Pending s1) ->
  promises st !! p2 = Some (Pending s2) ->
  denoInfo_resume r1 = inr info1 ->
  denoInfo_resume r2 = inr info2 ->
  s1 ∈ reportKeys info1 ->
  s2 ∈ reportKeys info2 ->
  (forall k, k ∈ reportKeys info1 -> k ∈ reportKeys info2 ->
     projectedEntry (redirects info1) (modules info1) k
     = projectedEntry (redirects info2) (modules info2) k) ->
  resume p1 r1 (resume p2 r2 st) = resume p2 r2 (resume p1 r1 st)
  /\ exists e1 e2,
       await (resume p1 r1 (resume p2 r2 st)) p1 = Some (inr e1)
       /\ await (resume p1 r1 (resume p2 r2 st)) p2 = Some (inr e2).
Proof.
  intros Hne Hp1 Hp2 Hr1 Hr2 Hk1 Hk2 Hag.
  pose proof (lookup_lt_Some _ _ _ Hp1) as Hl1.
  pose proof (lookup_lt_Some _ _ _ Hp2) as Hl2.
  rewrite (resume_pending p2 s2 r2 st Hp2).
  rewrite (resume_pending p1 s1 r1 st Hp1).
  rewrite (resume_pending p1 s1); simpl; [|by rewrite list_lookup_insert_ne].
  rewrite (resume_pending p2 s2); simpl; [|by rewrite list_lookup_insert_ne].
  unfold cacheAfter, outcome. rewrite Hr1, Hr2.
  set (c := resolveDenoInfoCache st).
  destruct info1 as [rs1 ms1], info2 as [rs2 ms2]. unfold reportKeys in *.
  simpl in Hk1, Hk2.
  rewrite !(lookup_projected rs1 ms1 _ s1 Hk1), !(lookup_projected rs2 ms2 _ s2 Hk2).
  destruct (proj2 (projectedEntry_written rs1 ms1 s1) Hk1) as [e1 E1].
  destruct (proj2 (projectedEntry_written rs2 ms2 s2) Hk2) as [e2 E2].
  rewrite E1, E2. split.
  - f_equal.
    + apply map_eq. intros k.
      by apply (cacheDenoInfo_swap_lookup {| redirects := rs1; modules := ms1 |}
                  {| redirects := rs2; modules := ms2 |}).
    + apply delete_delete.
    + by apply list_insert_insert_ne.
  - exists e1, e2. unfold await; simpl. split.
    + by rewrite list_lookup_insert_eq by (by rewrite length_insert).
    + rewrite list_lookup_insert_ne by done.
      by rewrite list_lookup_insert_eq.
Qed.

Lemma settle_order_witness :
  resume 0 (exited 0 (JsonReport report_ab))
    (resume 1 (exited 0 (JsonReport report_no_local))
       (run [CallDenoResolve "jsr:@a/b"; CallDenoResolve "https://esm.sh/x"] newEngine))
  = resume 1 (exited 0 (JsonReport report_no_local))
      (resume 0 (exited 0 (JsonReport report_ab))
         (run [CallDenoResolve "jsr:@a/b"; CallDenoResolve "https://esm.sh/x"] newEngine)).
Proof.
  apply (settle_order_irrelevant
           (run [CallDenoResolve "jsr:@a/b"; CallDenoResolve "https://esm.sh/x"] newEngine)
           0 1 "jsr:@a/b" "https://esm.sh/x"
           (exited 0 (JsonReport report_ab)) (exited 0 (JsonReport report_no_local))
           report_ab report_no_local); try reflexivity.
  - discriminate.
  - apply list_elem_of_In. right. left. reflexivity.
  - apply list_elem_of_In. left. reflexivity.
  - intros k H1 H2. exfalso.
    apply list_elem_of_In in H1, H2. vm_compute in H2.
    destruct H2 as [<-|[]]. vm_compute in H1.
    destruct H1 as [H1|[H1|[]]]; discriminate H1.
Defined.

(** X23. Running [buildStart] again after it has completed, as on a
    rebuild, starts no subprocess: with or without a report to seed from,
    the second run completes, and the subprocess log is as the first run
    left it. *)
Theorem buildStart_again
    (evs : list Event) (settle settle' : string -> CommandSettled)
    (seed seed' : option DenoInfoJsonV1) (entryPoints : list string) :
  let first := buildStart settle seed entryPoints (run evs newEngine) in
  fst first = Some (inr tt) ->
  let second := buildStart settle' seed' entryPoints (snd first) in
  fst second = Some (inr tt)
  /\ spawned (snd second) = spawned (snd first).
Proof.
  intros first Hok second. subst second.
  set (st0 := match seed' with
              | Some info => snd (cache_modify (cacheDenoInfo info) (snd first))
              | None => snd first
              end).
  change (buildStart settle' seed' entryPoints (snd first))
    with (buildStart_entries settle' entryPoints st0).
  assert (spawned st0 = spawned (snd first)) as <-
    by (subst st0; by destruct seed').
  destruct (buildStart_entries_hits settle' entryPoints st0) as (H1 & H2 & _);
    [|by rewrite H1, H2].
  intros entry Hin.
  assert (is_Some (resolveDenoInfoCache (snd first) !! entry)) as Hc.
  { subst first. unfold buildStart in *.
    apply buildStart_entries_cached; [|done|done].
    destruct seed; [apply Inv_cache_modify|]; apply Inv_reachable. }
  subst st0. destruct seed'; [|done]. simpl. by apply cacheDenoInfo_keeps.
Qed.

Lemma buildStart_again_witness :
  fst (buildStart (fun _ => OutputRejected) None ["jsr:@a/b"]
         (snd (buildStart (fun _ => exited 0 (JsonReport report_ab)) None
                 ["jsr:@a/b"] (run [] newEngine))))
  = Some (inr tt).
Proof.
  apply (buildStart_again [] (fun _ => exited 0 (JsonReport report_ab))
           (fun _ => OutputRejected) None None ["jsr:@a/b"]).
  vm_compute. reflexivity.
Defined.
